(** * MACOL: multi-agent context learning for cell association

    A shallow embedding of the two implementations of the MACOL
    association controller of this repository:

    - [CLMAB] of [test-macol.py] (the mmWave highway simulation), and
    - [MACOLSolution] of [toy-example/main.py] (the toy example).

    Python floats and ints are modelled by exact rationals ([Q]) and
    integers ([Z]); a Python exception ([KeyError], [ZeroDivisionError],
    [AttributeError]) is the value [None] of the option monad.  Objects
    (sectors, base stations, vehicles) are identified by natural numbers,
    and their attributes live in a store indexed by these identities. *)

From Stdlib Require Import QArith Qfield Lia Ascii String.
From stdpp Require Import gmap strings list fin_maps option functions.

Local Open Scope Z_scope.

(** ** Python arithmetic *)

(** [x / y]: true division, raising [ZeroDivisionError] on a zero divisor. *)
Definition py_div (x y : Q) : option Q :=
  if Qeq_bool y 0 then None else Some (x / y)%Q.

(** [sum(l)]: the built-in, adding from the left, starting at [0]. *)
Definition py_sum (l : list Q) : Q := foldl Qplus 0%Q l.

(** [len(...)] as a number that takes part in arithmetic. *)
Definition py_len (n : nat) : Q := inject_Z (Z.of_nat n).

(** ** Comparisons, loops and the random source *)

(** [x < y] on rationals, as a boolean. *)
Definition Qltb (x y : Q) : bool := negb (Qle_bool y x).

(** A [for] loop whose body may raise: the state is threaded through the
    elements in order, and the first exception ends the loop. *)
Fixpoint for_each {S A : Type} (body : A → S → option S) (l : list A) (σ : S)
  : option S :=
  match l with
  | [] => Some σ
  | x :: l' => σ' ← body x σ; for_each body l' σ'
  end.

(** The module [random]: the [k]-th call is answered by the [k]-th entry of
    the source, [choice_at] for [random.choice] and [random_at] for
    [random.random]; the state counts the calls made so far. *)
Record rand := Rand {
  choice_at : nat → nat;
  random_at : nat → Q
}.

(** [random.choice(l)], which raises [IndexError] on an empty list. *)
Definition random_choice {A : Type} (rnd : rand) (k : nat) (l : list A)
  : option A :=
  l !! (choice_at rnd k mod length l)%nat.

(** An active backoff at [check_time], for a timer [(start_time, duration)]:
    the test of [is_backoff], the same in [MySector] and in [BaseStation]. *)
Definition timer_active (timer : Q * Q) (check_time : Q) : bool :=
  let '(start_time, duration) := timer in
  Qltb (check_time - start_time) duration.

(** The character that the context string gets for one neighbour. *)
Definition context_bit (serving : bool) : string :=
  if serving then "1" else "0".

Definition bit_char (serving : bool) : ascii :=
  if serving then "1"%char else "0"%char.



(** ** The reward estimator (Q-store)

  [q_value] and [q_count] of both classes: a dictionary per agent, from
  context key to the running mean reward and to the sample count.  The
  four methods below read the same in [CLMAB] and in [MACOLSolution]
  (the former sums the values in a loop, the latter with [sum]). *)

Section QStore.
Context {K : Type} `{Countable K}.

Record qstore := QStore {
  q_value : gmap nat (gmap K Q);
  q_count : gmap nat (gmap K Z)
}.

(** The constructor's loop: an empty table for each agent. *)
Definition qstore_init (sector_list : list nat) : qstore :=
  foldl (λ st s, QStore (<[s := ∅]> (q_value st)) (<[s := ∅]> (q_count st)))
        (QStore ∅ ∅) sector_list.

Definition get_reward (st : qstore) (a : nat) (c : K) : option Q :=
  tv ← q_value st !! a;
  match tv !! c with
  | None => Some 0%Q
  | Some v => Some v
  end.

Definition update_reward (st : qstore) (a : nat) (c : K) (reward : Q)
  : option qstore :=
  tv ← q_value st !! a;
  st1 ← match tv !! c with
        | Some _ => Some st
        | None =>
            tc ← q_count st !! a;
            Some (QStore (<[a := <[c := 0%Q]> tv]> (q_value st))
                         (<[a := <[c := 0]> tc]> (q_count st)))
        end;
  tv1 ← q_value st1 !! a;
  v ← tv1 !! c;
  tc1 ← q_count st1 !! a;
  n ← tc1 !! c;
  let value := (v * inject_Z n + reward)%Q in
  let n' := n + 1 in
  q ← py_div value (inject_Z n');
  Some (QStore (<[a := <[c := q]> tv1]> (q_value st1))
               (<[a := <[c := n']> tc1]> (q_count st1))).

Definition get_threshold (st : qstore) (a : nat) : option Q :=
  tv ← q_value st !! a;
  if decide (size tv = 0%nat) then Some 0%Q
  else py_div (py_sum (snd <$> map_to_list tv)) (py_len (size tv)).

(** The sample count stored for a context, when there is one. *)
Definition stored_count (st : qstore) (a : nat) (c : K) : option Z :=
  tc ← q_count st !! a; tc !! c.

(** A sequence of [update_reward] calls, in order. *)
Definition run_updates (ops : list (nat * K * Q)) (st : qstore)
  : option qstore :=
  foldl (λ ost op, st ← ost; update_reward st op.1.1 op.1.2 op.2)
        (Some st) ops.



End QStore.

Arguments qstore K {_ _}.

(** ** [test-macol.py]: the sectors, the vehicles and [CLMAB] *)

Module CLMAB.

(** A node that answers a broadcast: [node.type] tells vehicles from base
    stations. *)
Inductive node :=
  | VehicleNode (v : nat)
  | SectorNode (s : nat).

#[global] Instance node_eq_dec : EqDecision node.
Proof. solve_decision. Defined.

(** [MySector].  The displacement bookkeeping ([serving_node_x],
    [serving_displacement]) and the per-period durations feed only the
    printed report and are left out. *)
Record sector := Sector {
  serving_node : option nat;
  total_duration : Q;
  total_interference_free : Q;
  period_conn_count : Z;
  serving_duration : Q;
  serving_interference_free : Q;
  neighbour_list : list nat;
  MAB_context : option string;
  MAB_backoff : Q * Q
}.

(** [MyVehicle]. *)
Record vehicle := Vehicle {
  associated_sector : option nat;
  has_interference : bool
}.

(** The transceivers of the simulator, as they answer during one call:
    [broadcast s] lists the nodes that hear the beacon of sector [s], and
    [unicast v s] is the quality of the reply of vehicle [v] received by
    [s], if it is received. *)
Record radio := Radio {
  broadcast : nat → list node;
  unicast : nat → nat → option Q
}.

(** The sectors and vehicles of the simulation and the attributes of the
    [CLMAB] object. *)
Record state := State {
  sectors : nat → sector;
  vehicles : nat → vehicle;
  exploration_rate : Q;
  exploration_time : Q;
  is_exploration_over : bool;
  store : qstore (option string);
  rng_pos : nat
}.

Definition new_sector (neighbours : list nat) : sector :=
  Sector None 0 0 0 0 0 neighbours None (0, 0)%Q.

Definition new_vehicle : vehicle := Vehicle None false.

(** The scenario's sectors with their neighbour lists, and
    [CLMAB(sector_list, exploration_time)]. *)
Definition init (sector_list : list nat) (neighbours : nat → list nat)
    (exploration_time : Q) : state :=
  State (λ s, new_sector (neighbours s)) (λ _, new_vehicle)
        1 exploration_time false (qstore_init sector_list) 0.

(** *** Attribute updates *)

Definition set_sector (s : nat) (x : sector) (σ : state) : state :=
  State (<[s := x]> (sectors σ)) (vehicles σ) (exploration_rate σ)
        (exploration_time σ) (is_exploration_over σ) (store σ) (rng_pos σ).

Definition set_vehicle (v : nat) (x : vehicle) (σ : state) : state :=
  State (sectors σ) (<[v := x]> (vehicles σ)) (exploration_rate σ)
        (exploration_time σ) (is_exploration_over σ) (store σ) (rng_pos σ).

Definition set_store (st : qstore (option string)) (σ : state) : state :=
  State (sectors σ) (vehicles σ) (exploration_rate σ)
        (exploration_time σ) (is_exploration_over σ) st (rng_pos σ).

Definition set_schedule (rate : Q) (over : bool) (σ : state) : state :=
  State (sectors σ) (vehicles σ) rate
        (exploration_time σ) over (store σ) (rng_pos σ).

Definition next_random (σ : state) : state :=
  State (sectors σ) (vehicles σ) (exploration_rate σ)
        (exploration_time σ) (is_exploration_over σ) (store σ) (S (rng_pos σ)).

(** *** [MySector] *)

Definition associate_vehicle (s v : nat) (σ : state) : state :=
  let x := sectors σ s in
  let σ1 := set_sector s
    (Sector (Some v) (total_duration x) (total_interference_free x)
            (period_conn_count x) (serving_duration x)
            (serving_interference_free x) (neighbour_list x)
            (MAB_context x) (MAB_backoff x)) σ in
  let σ2 := set_vehicle v
    (Vehicle (Some s) (has_interference (vehicles σ1 v))) σ1 in
  let y := sectors σ2 s in
  set_sector s
    (Sector (serving_node y) (total_duration y) (total_interference_free y)
            (period_conn_count y + 1) 0 0 (neighbour_list y)
            (MAB_context y) (MAB_backoff y)) σ2.

(** [lost_vehicle] reads [self.serving_node]: without one, the attribute
    access on [None] raises. *)
Definition lost_vehicle (s : nat) (σ : state) : option state :=
  v ← serving_node (sectors σ s);
  let σ1 := set_vehicle v
    (Vehicle None (has_interference (vehicles σ v))) σ in
  let x := sectors σ1 s in
  Some (set_sector s
    (Sector None (total_duration x) (total_interference_free x)
            (period_conn_count x) (serving_duration x)
            (serving_interference_free x) (neighbour_list x)
            (MAB_context x) (MAB_backoff x)) σ1).

Definition backoff (s : nat) (start_time duration : Q) (σ : state) : state :=
  let x := sectors σ s in
  set_sector s
    (Sector (serving_node x) (total_duration x) (total_interference_free x)
            (period_conn_count x) (serving_duration x)
            (serving_interference_free x) (neighbour_list x)
            (MAB_context x) (start_time, duration)) σ.

Definition is_backoff (s : nat) (check_time : Q) (σ : state) : bool :=
  timer_active (MAB_backoff (sectors σ s)) check_time.

Definition set_MAB_context (s : nat) (c : string) (σ : state) : state :=
  let x := sectors σ s in
  set_sector s
    (Sector (serving_node x) (total_duration x) (total_interference_free x)
            (period_conn_count x) (serving_duration x)
            (serving_interference_free x) (neighbour_list x)
            (Some c) (MAB_backoff x)) σ.

(** *** [CLMAB] *)

Definition get_current_context (s : nat) (σ : state) : string :=
  foldl (λ context neighbour,
           context +:+
           context_bit (bool_decide (serving_node (sectors σ neighbour) ≠ None)))
        "[" (neighbour_list (sectors σ s))
  +:+ "]".

(** The exploitation rule: [this_reward==0 or this_reward>this_threshold]. *)
Definition exploit_decision (this_reward this_threshold : Q) : bool :=
  Qeq_bool this_reward 0 || Qltb this_threshold this_reward.

Section Execute.
(** [gvar.algo["epsilon"]] and the random source of the run. *)
Variable epsilon : Q.
Variable rnd : rand.

(** "exploration or exploitation": the head of [execute]. *)
Definition update_schedule (sim_time : Q) (σ : state) : state :=
  if Qltb sim_time (exploration_time σ)
  then set_schedule 1 (is_exploration_over σ) σ
  else set_schedule epsilon true σ.

(** "check and update current association": the body of the first loop,
    which also collects [sector_lost_list]. *)
Definition check_association (rad : radio) (s : nat)
    (acc : state * list (nat * nat)) : option (state * list (nat * nat)) :=
  match serving_node (sectors (acc.1) s) with
  | None => Some acc
  | Some v =>
      if bool_decide (VehicleNode v ∈ broadcast rad s) then Some acc
      else σ' ← lost_vehicle s (acc.1); Some (σ', acc.2 ++ [(s, v)])
  end.

(** "connection just lost, so update reward": the body of the second loop.
    The result carries the arguments of the [update_reward] call, if the
    call is made. *)
Definition lost_reward (s : nat) (σ : state)
  : option (option (option string * Q)) :=
  let x := sectors σ s in
  if Qeq_bool (serving_duration x) 0 then Some None
  else
    the_reward ← py_div (serving_interference_free x) (serving_duration x);
    Some (Some (MAB_context x, the_reward)).

Definition reward_lost (lost : nat * nat) (σ : state) : option state :=
  call ← lost_reward lost.1 σ;
  match call with
  | None => Some σ
  | Some (context, the_reward) =>
      st ← update_reward (store σ) lost.1 context the_reward;
      Some (set_store st σ)
  end.

(** Steps 1 to 3 of the third loop: the unassociated vehicles among the
    replies whose own reply reaches the sector, with the signal quality. *)
Definition detection_list (rad : radio) (s : nat) (σ : state)
  : list (nat * Q) :=
  foldl (λ acc nd,
           match nd with
           | SectorNode _ => acc
           | VehicleNode v =>
               if bool_decide (associated_sector (vehicles σ v) ≠ None) then acc
               else match unicast rad v s with
                    | None => acc
                    | Some quality => acc ++ [(v, quality)]
                    end
           end)
        [] (broadcast rad s).

(** "exploration or exploitation?": [to_serve], and [this_threshold], which
    is bound in the exploitation branch only. *)
Definition serve_or_backoff (s : nat) (this_context : string) (draw : Q)
    (σ : state) : option (bool * option Q) :=
  if Qltb draw (exploration_rate σ) then Some (true, None)
  else
    this_reward ← get_reward (store σ) s (Some this_context);
    this_threshold ← get_threshold (store σ) s;
    Some (exploit_decision this_reward this_threshold, Some this_threshold).

(** "check for new association": the body of the third loop. *)
Definition new_association (sim_time : Q) (rad : radio) (s : nat) (σ : state)
  : option state :=
  if bool_decide (serving_node (sectors σ s) ≠ None) then Some σ
  else if is_backoff s sim_time σ then Some σ
  else
    let detected := detection_list rad s σ in
    if bool_decide (length detected ≠ 0%nat) then
      selected ← random_choice rnd (rng_pos σ) detected;
      let σ1 := next_random σ in
      let vehicle_to_select := selected.1 in
      let this_context := get_current_context s σ1 in
      let draw := random_at rnd (rng_pos σ1) in
      let σ2 := next_random σ1 in
      '(to_serve, bound) ← serve_or_backoff s this_context draw σ2;
      if to_serve : bool then
        Some (set_MAB_context s this_context
                (associate_vehicle s vehicle_to_select σ2))
      else
        this_threshold ← bound;
        Some (backoff s sim_time this_threshold σ2)
    else Some σ.

(** The first loop of [execute], from the list of sectors to the state and
    [sector_lost_list]. *)
Definition drop_lost (rad : radio) (all_sectors : list nat) (σ : state)
  : option (state * list (nat * nat)) :=
  for_each (check_association rad) all_sectors (σ, []).

Definition execute (sim_time duration : Q) (rad : radio)
    (all_vehicles all_sectors : list nat) (σ : state) : option state :=
  let σ0 := update_schedule sim_time σ in
  dropped ← drop_lost rad all_sectors σ0;
  σ1 ← for_each reward_lost dropped.2 dropped.1;
  for_each (new_association sim_time rad) all_sectors σ1.

(** *** [MyScenario.do_mobility]

    The step of the simulation around [execute]: the durations of the
    running connections grow by the time elapsed, then [execute] runs, then
    the interference flag of each associated vehicle is set from the beams
    that reach it.  [heard v] lists the nodes that hear the beacon of
    vehicle [v], and [probe s v] tells whether the probe of sector [s]
    reaches [v]. *)
Record epoch := Epoch {
  sim_time : Q;
  duration : Q;
  rad : radio;
  all_vehicles : list nat;
  heard : nat → list node;
  probe : nat → nat → bool
}.

Definition account (duration : Q) (s : nat) (σ : state) : option state :=
  let x := sectors σ s in
  match serving_node x with
  | None => Some σ
  | Some v =>
      let free := negb (has_interference (vehicles σ v)) in
      Some (set_sector s
        (Sector (serving_node x)
                (total_duration x + duration)%Q
                (if free then (total_interference_free x + duration)%Q
                 else total_interference_free x)
                (period_conn_count x)
                (serving_duration x + duration)%Q
                (if free then (serving_interference_free x + duration)%Q
                 else serving_interference_free x)
                (neighbour_list x) (MAB_context x) (MAB_backoff x)) σ)
  end.

Definition interferes (ep : epoch) (v : nat) (σ : state) (beam : node) : bool :=
  match beam with
  | VehicleNode _ => false
  | SectorNode b =>
      if bool_decide (serving_node (sectors σ b) = None) then false
      else if bool_decide (Some b = associated_sector (vehicles σ v)) then false
      else probe ep b v
  end.

Definition check_interference (ep : epoch) (v : nat) (σ : state)
  : option state :=
  if bool_decide (associated_sector (vehicles σ v) = None) then Some σ
  else
    Some (set_vehicle v
            (Vehicle (associated_sector (vehicles σ v))
                     (existsb (interferes ep v σ) (heard ep v))) σ).

Definition do_mobility (all_sectors : list nat) (ep : epoch) (σ : state)
  : option state :=
  σ1 ← for_each (account (duration ep)) all_sectors σ;
  σ2 ← execute (sim_time ep) (duration ep) (rad ep) (all_vehicles ep)
               all_sectors σ1;
  for_each (check_interference ep) (all_vehicles ep) σ2.

(** A run of the simulation: the steps are taken in order. *)
Definition run (all_sectors : list nat) (eps : list epoch) (σ : state)
  : option state :=
  for_each (do_mobility all_sectors) eps σ.

End Execute.

(** *** The calls of [update_reward]

    The arguments of the calls that the second loop of [execute] makes for
    [sector_lost_list], in order, and those of a whole call of [execute]
    whose first loop starts in [σ]. *)
Fixpoint reward_calls (lost : list (nat * nat)) (σ : state)
  : option (list (nat * option string * Q)) :=
  match lost with
  | [] => Some []
  | p :: rest =>
      call ← lost_reward p.1 σ;
      calls ← reward_calls rest σ;
      Some (match call with
            | Some (context, the_reward) => (p.1, context, the_reward) :: calls
            | None => calls
            end)
  end.

Definition execute_calls (rad : radio) (all_sectors : list nat) (σ : state)
  : option (list (nat * option string * Q)) :=
  dropped ← drop_lost rad all_sectors σ;
  reward_calls dropped.2 dropped.1.

(** *** Properties of the states of a run *)

(** The three attributes of the exploration schedule. *)
Definition schedule (σ : state) : Q * Q * bool :=
  (exploration_rate σ, exploration_time σ, is_exploration_over σ).

(** The sector that a vehicle names as its own serves that vehicle. *)
Definition clients_known (σ : state) : Prop :=
  ∀ v s, associated_sector (vehicles σ v) = Some s →
         serving_node (sectors σ s) = Some v.

(** No sector holds a client while its backoff is active at time [t]. *)
Definition no_active_backoff (t : Q) (σ : state) : Prop :=
  ∀ s, serving_node (sectors σ s) ≠ None → is_backoff s t σ = false.

End CLMAB.
(** ** [toy-example/main.py]: the base stations, the vehicles and
    [MACOLSolution] *)

Module Toy.

(** [BaseStation].  The position is left to [can_reach] below.  The
    attributes [serving_duration], [serving_inter_free] and [MAB_context]
    are created by the first association ([__init__] creates
    [MACOL_context], which nothing reads): until then they are [None] here,
    and reading them raises. *)
Record base_station := BaseStation {
  serving_vehicle : option nat;
  total_serving_duration : Q;
  total_serving_count : Z;
  serving_duration : option Q;
  serving_inter_free : option Q;
  MAB_context : option string;
  MACOL_backoff : Q * Q
}.

(** [Vehicle], without its geometry. *)
Record vehicle := Vehicle {
  associated_bs : option nat;
  signal_count : Z
}.

(** The stations and vehicles of the simulation and the attributes of the
    [MACOLSolution] object. *)
Record state := State {
  stations : nat → base_station;
  vehicles : nat → vehicle;
  epsilon : Q;
  exploration_rate : Q;
  exploration_time : Q;
  is_full_exploration : bool;
  store : qstore string;
  rng_pos : nat
}.

Definition new_station : base_station :=
  BaseStation None 0 0 None None None (0, 0)%Q.

Definition new_vehicle : vehicle := Vehicle None 0.

(** The stations and vehicles as created, and [MACOLSolution(bs_list)]. *)
Definition init (bs_list : list nat) : state :=
  State (λ _, new_station) (λ _, new_vehicle)
        (5 # 100) 1 8000 true (qstore_init bs_list) 0.

(** *** Attribute updates *)

Definition set_station (b : nat) (x : base_station) (σ : state) : state :=
  State (<[b := x]> (stations σ)) (vehicles σ) (epsilon σ)
        (exploration_rate σ) (exploration_time σ) (is_full_exploration σ)
        (store σ) (rng_pos σ).

Definition set_vehicle (v : nat) (x : vehicle) (σ : state) : state :=
  State (stations σ) (<[v := x]> (vehicles σ)) (epsilon σ)
        (exploration_rate σ) (exploration_time σ) (is_full_exploration σ)
        (store σ) (rng_pos σ).

Definition set_store (st : qstore string) (σ : state) : state :=
  State (stations σ) (vehicles σ) (epsilon σ)
        (exploration_rate σ) (exploration_time σ) (is_full_exploration σ)
        st (rng_pos σ).

Definition set_schedule (rate : Q) (full : bool) (σ : state) : state :=
  State (stations σ) (vehicles σ) (epsilon σ)
        rate (exploration_time σ) full (store σ) (rng_pos σ).

Definition next_random (σ : state) : state :=
  State (stations σ) (vehicles σ) (epsilon σ)
        (exploration_rate σ) (exploration_time σ) (is_full_exploration σ)
        (store σ) (S (rng_pos σ)).

(** *** [Vehicle] and [BaseStation] *)

Definition is_connected (v : nat) (σ : state) : bool :=
  bool_decide (associated_bs (vehicles σ v) ≠ None).

Definition associate_vehicle (b v : nat) (σ : state) : state :=
  let x := stations σ b in
  let σ1 := set_station b
    (BaseStation (Some v) (total_serving_duration x) (total_serving_count x)
                 (serving_duration x) (serving_inter_free x)
                 (MAB_context x) (MACOL_backoff x)) σ in
  let σ2 := set_vehicle v (Vehicle (Some b) (signal_count (vehicles σ1 v))) σ1 in
  let y := stations σ2 b in
  set_station b
    (BaseStation (serving_vehicle y) (total_serving_duration y)
                 (total_serving_count y) (Some 0%Q) (Some 0%Q)
                 (MAB_context y) (MACOL_backoff y)) σ2.

Definition lost_vehicle (b : nat) (σ : state) : option state :=
  let x := stations σ b in
  d ← serving_duration x;
  let σ1 := set_station b
    (BaseStation (serving_vehicle x) (total_serving_duration x + d)%Q
                 (total_serving_count x + 1) (serving_duration x)
                 (serving_inter_free x) (MAB_context x) (MACOL_backoff x)) σ in
  v ← serving_vehicle (stations σ1 b);
  let σ2 := set_vehicle v (Vehicle None (signal_count (vehicles σ1 v))) σ1 in
  let y := stations σ2 b in
  Some (set_station b
    (BaseStation None (total_serving_duration y) (total_serving_count y)
                 (serving_duration y) (serving_inter_free y)
                 (MAB_context y) (MACOL_backoff y)) σ2).

Definition get_average_serving_duration (b : nat) (σ : state) : option Q :=
  py_div (total_serving_duration (stations σ b))
         (inject_Z (total_serving_count (stations σ b))).

Definition backoff (b : nat) (start_time duration : Q) (σ : state) : state :=
  let x := stations σ b in
  set_station b
    (BaseStation (serving_vehicle x) (total_serving_duration x)
                 (total_serving_count x) (serving_duration x)
                 (serving_inter_free x) (MAB_context x)
                 (start_time, duration)) σ.

Definition is_backoff (b : nat) (check_time : Q) (σ : state) : bool :=
  timer_active (MACOL_backoff (stations σ b)) check_time.

Definition set_MAB_context (b : nat) (c : string) (σ : state) : state :=
  let x := stations σ b in
  set_station b
    (BaseStation (serving_vehicle x) (total_serving_duration x)
                 (total_serving_count x) (serving_duration x)
                 (serving_inter_free x) (Some c) (MACOL_backoff x)) σ.

(** *** [MACOLSolution] *)

Definition get_current_context (b : nat) (bs_list : list nat) (σ : state)
  : string :=
  foldl (λ context neighbor,
           if bool_decide (neighbor = b) then context
           else context +:+
                context_bit
                  (bool_decide (serving_vehicle (stations σ neighbor) ≠ None)))
        "[" bs_list
  +:+ "]".

(** The exploitation rule: [this_reward==0 or this_reward>this_threshold]. *)
Definition exploit_decision (this_reward this_threshold : Q) : bool :=
  Qeq_bool this_reward 0 || Qltb this_threshold this_reward.

Section Execute.
(** The random source of the run and the reach of the stations during one
    iteration of the simulation loop: [can_reach b v]. *)
Variable rnd : rand.

(** "exploration or exploitation": the head of [execute]. *)
Definition update_schedule (sim_time : Q) (σ : state) : state :=
  if is_full_exploration σ then
    if Qltb (exploration_time σ) sim_time
    then set_schedule (epsilon σ) false σ
    else σ
  else σ.

(** "check and update current association": the body of the first loop,
    which also collects [bs_lost_list]. *)
Definition check_association (can_reach : nat → nat → bool) (b : nat)
    (acc : state * list (nat * nat)) : option (state * list (nat * nat)) :=
  match serving_vehicle (stations (acc.1) b) with
  | None => Some acc
  | Some v =>
      if can_reach b v then Some acc
      else σ' ← lost_vehicle b (acc.1); Some (σ', acc.2 ++ [(b, v)])
  end.

(** "connection just lost, so update reward": the arguments of the
    [update_reward] call of the second loop. *)
Definition lost_reward (b : nat) (σ : state) : option (string * Q) :=
  the_reward ← serving_inter_free (stations σ b);
  context ← MAB_context (stations σ b);
  Some (context, the_reward).

Definition reward_lost (lost : nat * nat) (σ : state) : option state :=
  '(context, the_reward) ← lost_reward lost.1 σ;
  st ← update_reward (store σ) lost.1 context the_reward;
  Some (set_store st σ).

(** Step 1 of the third loop. *)
Definition reachable_vehicles (can_reach : nat → nat → bool) (b : nat)
    (vehicle_list : list nat) (σ : state) : list nat :=
  foldl (λ acc v,
           if negb (is_connected v σ) && can_reach b v then acc ++ [v]
           else acc)
        [] vehicle_list.

(** "exploration or exploitation?": [to_serve]. *)
Definition serve_or_backoff (b : nat) (this_context : string) (draw : Q)
    (σ : state) : option bool :=
  if Qltb draw (exploration_rate σ) then Some true
  else
    this_reward ← get_reward (store σ) b this_context;
    this_threshold ← get_threshold (store σ) b;
    Some (exploit_decision this_reward this_threshold).

(** "check for new association": the body of the third loop. *)
Definition new_association (sim_time : Q) (can_reach : nat → nat → bool)
    (vehicle_list bs_list : list nat) (b : nat) (σ : state) : option state :=
  if bool_decide (serving_vehicle (stations σ b) ≠ None) then Some σ
  else if is_backoff b sim_time σ then Some σ
  else
    let reachable := reachable_vehicles can_reach b vehicle_list σ in
    if bool_decide (length reachable ≠ 0%nat) then
      selected_vehicle ← random_choice rnd (rng_pos σ) reachable;
      let σ1 := next_random σ in
      let this_context := get_current_context b bs_list σ1 in
      let draw := random_at rnd (rng_pos σ1) in
      let σ2 := next_random σ1 in
      to_serve ← serve_or_backoff b this_context draw σ2;
      if to_serve : bool then
        Some (set_MAB_context b this_context
                (associate_vehicle b selected_vehicle σ2))
      else
        duration ← get_average_serving_duration b σ2;
        Some (backoff b sim_time duration σ2)
    else Some σ.

(** The first loop of [execute], from the list of stations to the state and
    [bs_lost_list]. *)
Definition drop_lost (can_reach : nat → nat → bool) (bs_list : list nat)
    (σ : state) : option (state * list (nat * nat)) :=
  for_each (check_association can_reach) bs_list (σ, []).

Definition execute (sim_time : Q) (can_reach : nat → nat → bool)
    (vehicle_list bs_list : list nat) (σ : state) : option state :=
  let σ0 := update_schedule sim_time σ in
  dropped ← drop_lost can_reach bs_list σ0;
  σ1 ← for_each reward_lost dropped.2 dropped.1;
  for_each (new_association sim_time can_reach vehicle_list bs_list) bs_list σ1.

(** *** The simulation loop

    One iteration: [execute] at the tick, the count of the transmissions
    that each connected vehicle receives, the durations of the running
    connections, and the move of the vehicles, where [resets v] tells
    whether [v] leaves the screen and is reset. *)
Record epoch := Epoch {
  sim_tick : Q;
  can_reach : nat → nat → bool;
  resets : nat → bool
}.

Definition check_interference (ep : epoch) (bs_list : list nat) (v : nat)
    (σ : state) : option state :=
  if negb (is_connected v σ) then Some σ
  else
    Some (set_vehicle v
      (Vehicle (associated_bs (vehicles σ v))
         (foldl (λ count b,
                   if bool_decide (serving_vehicle (stations σ b) = None)
                   then count
                   else if can_reach ep b v then count + 1 else count)
                0 bs_list)) σ).

Definition account (b : nat) (σ : state) : option state :=
  let x := stations σ b in
  match serving_vehicle x with
  | None => Some σ
  | Some v =>
      d ← serving_duration x;
      let σ1 := set_station b
        (BaseStation (serving_vehicle x) (total_serving_duration x)
                     (total_serving_count x) (Some (d + 1)%Q)
                     (serving_inter_free x) (MAB_context x)
                     (MACOL_backoff x)) σ in
      if bool_decide (signal_count (vehicles σ1 v) = 1) then
        let y := stations σ1 b in
        f ← serving_inter_free y;
        Some (set_station b
          (BaseStation (serving_vehicle y) (total_serving_duration y)
                       (total_serving_count y) (serving_duration y)
                       (Some (f + 1)%Q) (MAB_context y)
                       (MACOL_backoff y)) σ1)
      else Some σ1
  end.

Definition update_vehicle (ep : epoch) (v : nat) (σ : state) : option state :=
  if resets ep v then Some (set_vehicle v (Vehicle None 0) σ) else Some σ.

Definition loop_step (vehicle_list bs_list : list nat) (ep : epoch)
    (σ : state) : option state :=
  σ1 ← execute (sim_tick ep) (can_reach ep) vehicle_list bs_list σ;
  σ2 ← for_each (check_interference ep bs_list) vehicle_list σ1;
  σ3 ← for_each account bs_list σ2;
  for_each (update_vehicle ep) vehicle_list σ3.

(** A run of the simulation: the iterations are taken in order. *)
Definition run (vehicle_list bs_list : list nat) (eps : list epoch)
    (σ : state) : option state :=
  for_each (loop_step vehicle_list bs_list) eps σ.

End Execute.

(** *** The calls of [update_reward]

    The arguments of the calls that the second loop of [execute] makes for
    [bs_lost_list], in order, and those of a whole call of [execute] whose
    first loop starts in [σ]. *)
Fixpoint reward_calls (lost : list (nat * nat)) (σ : state)
  : option (list (nat * string * Q)) :=
  match lost with
  | [] => Some []
  | p :: rest =>
      call ← lost_reward p.1 σ;
      calls ← reward_calls rest σ;
      Some ((p.1, call.1, call.2) :: calls)
  end.

Definition execute_calls (can_reach : nat → nat → bool) (bs_list : list nat)
    (σ : state) : option (list (nat * string * Q)) :=
  dropped ← drop_lost can_reach bs_list σ;
  reward_calls dropped.2 dropped.1.

(** *** Properties of the states of a run *)

(** The four attributes of the exploration schedule. *)
Definition schedule (σ : state) : Q * Q * Q * bool :=
  (epsilon σ, exploration_rate σ, exploration_time σ, is_full_exploration σ).

(** The station that a vehicle names as its own serves that vehicle. *)
Definition clients_known (σ : state) : Prop :=
  ∀ v b, associated_bs (vehicles σ v) = Some b →
         serving_vehicle (stations σ b) = Some v.

(** No station holds a client while its backoff is active at time [t]. *)
Definition no_active_backoff (t : Q) (σ : state) : Prop :=
  ∀ b, serving_vehicle (stations σ b) ≠ None → is_backoff b t σ = false.

(** A station with a context in its table has lost a connection before,
    and no count is negative. *)
Definition counted (σ : state) : Prop :=
  ∀ b, 0 ≤ total_serving_count (stations σ b) ∧
       ∀ tv c r, q_value (store σ) !! b = Some tv → tv !! c = Some r →
                 1 ≤ total_serving_count (stations σ b).

(** The states in which the third loop of a call of [execute], started in
    [σ], comes to station [b]. *)
Definition at_decision (rnd : rand) (sim_time : Q)
    (can_reach : nat → nat → bool) (vehicle_list bs_list : list nat)
    (σ : state) (b : nat) (σd : state) : Prop :=
  ∃ before after σ1 lost σ2,
    bs_list = before ++ b :: after ∧
    drop_lost can_reach bs_list (update_schedule sim_time σ) = Some (σ1, lost) ∧
    for_each reward_lost lost σ1 = Some σ2 ∧
    for_each (new_association rnd sim_time can_reach vehicle_list bs_list)
             before σ2 = Some σd.

End Toy.
(** ** Concrete inputs for the examples *)

(** A random source that always picks the first candidate and always draws
    [1], so that every decision is taken in the exploitation branch. *)
Definition rnd_exploit : rand := Rand (λ _, 0%nat) (λ _, 1%Q).


(** *** [test-macol.py] *)

(** A radio on which nothing is heard, and one on which every sector hears
    vehicle [v] and the reply of [v]. *)
Definition quiet_radio : CLMAB.radio := CLMAB.Radio (λ _, []) (λ _ _, None).

Definition radio_sees (v : nat) : CLMAB.radio :=
  CLMAB.Radio (λ _, [CLMAB.VehicleNode v]) (λ _ _, Some 1%Q).

(** A step of the simulation at time [t], one time unit after the step
    before, with the radio [r] and no interference. *)
Definition epoch_with (t : Q) (r : CLMAB.radio) : CLMAB.epoch :=
  CLMAB.Epoch t 1 r [] (λ _, []) (λ _ _, false).

Definition quiet_epoch (t : Q) : CLMAB.epoch := epoch_with t quiet_radio.

(** One sector without neighbours, [exploration_time = 0]. *)
Definition one_sector : CLMAB.state := CLMAB.init [0%nat] (λ _, []) 0.

(** Vehicle 7 is served at times 1 and 2 and is gone at time 3. *)
Definition served_then_lost : list CLMAB.epoch :=
  [epoch_with 1 (radio_sees 7); epoch_with 2 (radio_sees 7);
   epoch_with 3 quiet_radio].

Definition after_one_connection : CLMAB.state :=
  default one_sector
    (CLMAB.run (5 # 100) rnd_exploit [0%nat] served_then_lost one_sector).


(** One sector with the two neighbours 1 and 2. *)
Definition sector_with_neighbours : CLMAB.state :=
  CLMAB.init [0%nat; 1%nat; 2%nat] (λ _, [1%nat; 2%nat]) 0.

(** *** [toy-example/main.py] *)

Definition reach_all : nat → nat → bool := λ _ _, true.
Definition reach_none : nat → nat → bool := λ _ _, false.
Definition reach_0_7 : nat → nat → bool :=
  λ b v, (b =? 0)%nat && (v =? 7)%nat.

Definition toy_epoch (t : Q) (reach : nat → nat → bool) : Toy.epoch :=
  Toy.Epoch t reach (λ _, false).

(** Two stations and two vehicles: both stations serve at tick 1 and
    interfere with each other, station 1 loses its vehicle at tick 2. *)
Definition two_stations : Toy.state := Toy.init [0%nat; 1%nat].

Definition two_ticks : list Toy.epoch :=
  [toy_epoch 1 reach_all; toy_epoch 2 reach_0_7].

Definition after_two_ticks : Toy.state :=
  default two_stations
    (Toy.run rnd_exploit [7%nat; 8%nat] [0%nat; 1%nat] two_ticks two_stations).

(** The two stations right after the associations of tick 1, before any
    duration is counted. *)
Definition just_associated : Toy.state :=
  default two_stations
    (Toy.execute rnd_exploit 1 reach_all [7%nat; 8%nat] [0%nat; 1%nat]
       two_stations).

(** One station: vehicle 7 is served at tick 1 and lost at tick 2. *)
Definition one_station : Toy.state := Toy.init [0%nat].

Definition one_connection : list Toy.epoch :=
  [toy_epoch 1 reach_0_7; toy_epoch 2 reach_none].

Definition after_one_toy_connection : Toy.state :=
  default one_station
    (Toy.run rnd_exploit [7%nat; 8%nat] [0%nat] one_connection one_station).

(** The sector of [one_sector] while it serves vehicle 7, after the step at
    time 2. *)
Definition while_serving : CLMAB.state :=
  default one_sector
    (CLMAB.run (5 # 100) rnd_exploit [0%nat]
       [epoch_with 1 (radio_sees 7); epoch_with 2 (radio_sees 7)] one_sector).

(** The state in which the call of [execute] at tick 3 decides for the
    station of [after_one_toy_connection]. *)
Definition deciding : Toy.state :=
  Toy.update_schedule 3 after_one_toy_connection.

(** [one_sector] after a call of [execute] at time 1 on a quiet radio. *)
Definition after_quiet_call : CLMAB.state :=
  default one_sector
    (CLMAB.execute (5 # 100) rnd_exploit 1 1 quiet_radio [] [0%nat] one_sector).

(** The toy example with a tick past the exploration time followed by an
    earlier tick. *)
Definition late_then_early : list Toy.epoch :=
  [] ++ toy_epoch 8001 reach_none :: [toy_epoch 1 reach_none].

Definition after_late_tick : Toy.state :=
  default one_station
    (Toy.run rnd_exploit [] [0%nat] late_then_early one_station).

(** ** Well-formed tables *)

Section StoreShape.
Context {K : Type} `{Countable K}.

(** The tables of the agents of [sector_list] exist, a context has a mean
    exactly when it has a count, and no count is negative. *)
Definition store_ok (sector_list : list nat) (st : qstore K) : Prop :=
  ∀ a, a ∈ sector_list →
    ∃ tv tc, q_value st !! a = Some tv ∧ q_count st !! a = Some tc ∧
      ∀ c, (tv !! c = None ↔ tc !! c = None) ∧
           ∀ n, tc !! c = Some n → 0 ≤ n.

(** Every stored mean lies between [lo] and [hi], and no count is
    negative. *)
Definition store_within (lo hi : Q) (st : qstore K) : Prop :=
  (∀ a tv c v, q_value st !! a = Some tv → tv !! c = Some v →
               (lo <= v <= hi)%Q) ∧
  (∀ a tc c n, q_count st !! a = Some tc → tc !! c = Some n → 0 ≤ n).

End StoreShape.

(** * Proofs *)

(** ** Arithmetic *)

Lemma py_div_Some x y : ¬ (y == 0)%Q → py_div x y = Some (x / y)%Q.
Proof.
  intros Hy. unfold py_div.
  destruct (Qeq_bool y 0) eqn:E; [|done].
  apply Qeq_bool_iff in E. contradiction.
Qed.

Lemma py_div_inv x y q : py_div x y = Some q → ¬ (y == 0)%Q ∧ q = (x / y)%Q.
Proof.
  unfold py_div. destruct (Qeq_bool y 0) eqn:E; [done|].
  intros [= <-]. split; [|done].
  intros Hy. apply Qeq_bool_iff in Hy. congruence.
Qed.





Lemma py_len_S n : (py_len (S n) == py_len n + 1)%Q.
Proof.
  unfold py_len. rewrite Nat2Z.inj_succ. unfold Z.succ.
  rewrite inject_Z_plus. reflexivity.
Qed.

Lemma py_len_pos n : (0 < py_len (S n))%Q.
Proof.
  unfold py_len. change 0%Q with (inject_Z 0).
  rewrite <- Zlt_Qlt. lia.
Qed.

(** ** Loops, comparisons and timers *)

Lemma Qltb_lt x y : Qltb x y = true ↔ (x < y)%Q.
Proof.
  unfold Qltb. rewrite negb_true_iff, <- not_true_iff_false, Qle_bool_iff.
  split; [apply Qnot_le_lt | apply Qlt_not_le].
Qed.

Lemma Qltb_ge x y : Qltb x y = false ↔ (y <= x)%Q.
Proof. unfold Qltb. rewrite negb_false_iff. apply Qle_bool_iff. Qed.

Section ForEach.
Context {S A : Type}.
Implicit Types (body : A → S → option S) (l : list A) (σ : S).

Lemma for_each_app body l1 l2 σ :
  for_each body (l1 ++ l2) σ = for_each body l1 σ ≫= for_each body l2.
Proof.
  revert σ. induction l1 as [|x l1 IH]; intros σ; simpl; [done|].
  destruct (body x σ) as [σ'|]; simpl; [apply IH|done].
Qed.

Lemma for_each_snoc body l x σ :
  for_each body (l ++ [x]) σ = for_each body l σ ≫= body x.
Proof.
  rewrite for_each_app. destruct (for_each body l σ) as [σ'|]; simpl; [|done].
  by destruct (body x σ').
Qed.

(** A property kept by the body is kept by the loop. *)
Lemma for_each_inv (P : S → Prop) body l σ σ' :
  (∀ x τ τ', x ∈ l → P τ → body x τ = Some τ' → P τ') →
  P σ → for_each body l σ = Some σ' → P σ'.
Proof.
  revert σ. induction l as [|x l IH]; intros σ Hbody HP Hrun; simpl in Hrun.
  - by injection Hrun as <-.
  - destruct (body x σ) as [τ|] eqn:E; simpl in Hrun; [|done].
    apply (IH τ); [|by eapply Hbody; [left|..]|done].
    intros y τ1 τ2 Hy. apply Hbody. by right.
Qed.

(** An observation that the body leaves alone is left alone by the loop. *)
Lemma for_each_frame {B : Type} (f : S → B) body l σ σ' :
  (∀ x τ τ', x ∈ l → body x τ = Some τ' → f τ' = f τ) →
  for_each body l σ = Some σ' → f σ' = f σ.
Proof.
  intros Hbody Hrun.
  apply (for_each_inv (λ τ, f τ = f σ) body l σ σ'); [|done|done].
  intros x τ τ' Hx Hτ Hb. rewrite <- Hτ. by eapply Hbody.
Qed.

(** A loop runs to its end when its body never raises on the states that
    satisfy an invariant of the body. *)
Lemma for_each_total (P : S → Prop) body l σ :
  (∀ x τ, x ∈ l → P τ → ∃ τ', body x τ = Some τ' ∧ P τ') →
  P σ → ∃ σ', for_each body l σ = Some σ' ∧ P σ'.
Proof.
  revert σ. induction l as [|x l IH]; intros σ Hbody HP; simpl.
  - by exists σ.
  - destruct (Hbody x σ) as (τ & -> & Hτ); [by left|done|]. simpl.
    apply IH; [|done]. intros y τ1 Hy. apply Hbody. by right.
Qed.

End ForEach.


Lemma fn_insert_apply {A B : Type} `{EqDecision A} (f : A → B) (a a' : A) (b : B) :
  (<[a := b]> f) a' = if decide (a = a') then b else f a'.
Proof. reflexivity. Qed.


Lemma bool_decide_elem_of_cons_ne (s x : nat) (l : list nat) :
  s ≠ x → bool_decide (s ∈ x :: l) = bool_decide (s ∈ l).
Proof.
  intros Hne. apply bool_decide_ext. rewrite elem_of_cons.
  split; [by intros [?|?]|by right].
Qed.

(** ** Facts about the Q-store *)

Section QStoreFacts.
Context {K : Type} `{Countable K}.
Implicit Types (st : qstore K) (tv : gmap K Q) (tc : gmap K Z).

Lemma qstore_init_lookup (sector_list : list nat) (a : nat) :
  a ∈ sector_list →
  q_value (qstore_init (K:=K) sector_list) !! a = Some ∅ ∧
  q_count (qstore_init (K:=K) sector_list) !! a = Some ∅.
Proof.
  unfold qstore_init.
  induction sector_list as [|s l IH] using rev_ind; intros Hin.
  - by apply elem_of_nil in Hin.
  - rewrite foldl_app. simpl.
    destruct (decide (s = a)) as [->|Hne].
    + by rewrite !lookup_insert_eq.
    + rewrite !lookup_insert_ne by done.
      apply IH. apply elem_of_app in Hin as [Hin|Hin]; [done|].
      apply list_elem_of_singleton in Hin. congruence.
Qed.

Lemma qstore_init_empty (sector_list : list nat) (a : nat) tv :
  q_value (qstore_init (K:=K) sector_list) !! a = Some tv → tv = ∅.
Proof.
  unfold qstore_init.
  induction sector_list as [|s l IH] using rev_ind.
  - simpl. by rewrite lookup_empty.
  - rewrite foldl_app. simpl. rewrite lookup_insert.
    case_decide; [congruence|exact IH].
Qed.

(** What one call of [update_reward] does to a store in which the agent
    is registered: [v] and [n] are the mean and the count the call
    starts from (both [0] for a context that is not in the table). *)
Lemma update_reward_step st a c r tv tc v n :
  q_value st !! a = Some tv →
  q_count st !! a = Some tc →
  (tv !! c = Some v ∧ tc !! c = Some n) ∨ (tv !! c = None ∧ v = 0%Q ∧ n = 0) →
  n + 1 ≠ 0 →
  ∃ st' tv' tc',
    update_reward st a c r = Some st' ∧
    q_value st' !! a = Some tv' ∧ q_count st' !! a = Some tc' ∧
    tv' !! c = Some ((v * inject_Z n + r) / inject_Z (n + 1))%Q ∧
    tc' !! c = Some (n + 1) ∧
    (∀ c', c' ≠ c → tv' !! c' = tv !! c' ∧ tc' !! c' = tc !! c') ∧
    (∀ a', a' ≠ a →
       q_value st' !! a' = q_value st !! a' ∧
       q_count st' !! a' = q_count st !! a').
Proof.
  intros Hv Hc Hcase Hn.
  assert (Hdiv : ∀ x, py_div x (inject_Z (n + 1)) = Some (x / inject_Z (n + 1))%Q).
  { intros x. apply py_div_Some. change 0%Q with (inject_Z 0).
    rewrite inject_Z_injective. done. }
  unfold update_reward. rewrite Hv. simpl.
  destruct Hcase as [[Hvc Hcc]|(Hvc & -> & ->)]; rewrite Hvc; simpl.
  - rewrite Hv. simpl. rewrite Hvc. simpl. rewrite Hc. simpl. rewrite Hcc. simpl.
    rewrite Hdiv. simpl.
    eexists _, _, _. split; [reflexivity|]. simpl.
    split; [apply lookup_insert_eq|]. split; [apply lookup_insert_eq|].
    split; [apply lookup_insert_eq|]. split; [apply lookup_insert_eq|].
    split.
    + intros c' Hne. by rewrite !lookup_insert_ne.
    + intros a' Hne. by rewrite !lookup_insert_ne.
  - rewrite Hc. simpl. rewrite !lookup_insert_eq. simpl.
    rewrite !lookup_insert_eq. simpl.
    eexists _, _, _. split; [reflexivity|]. simpl.
    split; [apply lookup_insert_eq|]. split; [apply lookup_insert_eq|].
    split; [apply lookup_insert_eq|]. split; [apply lookup_insert_eq|].
    split.
    + intros c' Hne. by rewrite !lookup_insert_ne.
    + intros a' Hne. by rewrite !lookup_insert_ne.
Qed.








(** A call of [update_reward] writes the tables of its agent only. *)
Lemma update_reward_other st a c r st' a' :
  update_reward st a c r = Some st' → a' ≠ a →
  q_value st' !! a' = q_value st !! a' ∧ q_count st' !! a' = q_count st !! a'.
Proof.
  unfold update_reward. intros Hu Hne.
  destruct (q_value st !! a) as [tv|]; [|done]. simpl in Hu.
  destruct (tv !! c) as [v0|].
  - simpl in Hu.
    repeat (match type of Hu with
            | (?m ≫= _) = Some _ => destruct m; simpl in Hu; [|done]
            end).
    injection Hu as <-. simpl. by rewrite !lookup_insert_ne.
  - destruct (q_count st !! a) as [tc|]; [|done]. simpl in Hu.
    repeat (match type of Hu with
            | (?m ≫= _) = Some _ => destruct m; simpl in Hu; [|done]
            end).
    injection Hu as <-. simpl. by rewrite !lookup_insert_ne.
Qed.

Lemma run_updates_None (ops : list (nat * K * Q)) :
  foldl (λ ost op, st ← ost; update_reward st op.1.1 op.1.2 op.2) None ops
  = None.
Proof. induction ops as [|op ops IH]; simpl; [done|exact IH]. Qed.

Lemma run_updates_cons op (ops : list (nat * K * Q)) st :
  run_updates (op :: ops) st =
  update_reward st op.1.1 op.1.2 op.2 ≫= run_updates ops.
Proof.
  unfold run_updates. simpl.
  destruct (update_reward st op.1.1 op.1.2 op.2); simpl; [done|].
  apply run_updates_None.
Qed.

(** Calls for other agents leave the tables of an agent as they are. *)
Lemma run_updates_other (ops : list (nat * K * Q)) st st' a :
  run_updates ops st = Some st' →
  filter (λ op, op.1.1 = a) ops = [] →
  q_value st' !! a = q_value st !! a ∧ q_count st' !! a = q_count st !! a.
Proof.
  revert st. induction ops as [|op ops IH]; intros st Hr Hf.
  - by injection Hr as <-.
  - rewrite run_updates_cons in Hr.
    destruct (update_reward st op.1.1 op.1.2 op.2) as [st1|] eqn:Hu; [|done].
    simpl in Hr. rewrite list.filter_cons in Hf.
    case_decide as Ha; [done|].
    destruct (IH st1 Hr Hf) as [-> ->].
    apply (update_reward_other _ _ _ _ _ a Hu). congruence.
Qed.

End QStoreFacts.
(** ** [CLMAB]: what the loops of [execute] do *)

Module CLMAB_facts.
Import CLMAB.

Ltac state_simpl :=
  unfold set_MAB_context, associate_vehicle, backoff, next_random,
    set_store, set_schedule, set_sector, set_vehicle in *;
  cbn [sectors vehicles exploration_rate exploration_time is_exploration_over
       store rng_pos serving_node total_duration total_interference_free
       period_conn_count serving_duration serving_interference_free
       neighbour_list MAB_context MAB_backoff associated_sector
       has_interference fst snd] in *;
  rewrite ?fn_insert_apply in *.

(** *** The bodies of the loops, case by case *)

Lemma clmab_lost_vehicle_cases s σ σ' :
  lost_vehicle s σ = Some σ' →
  ∃ v, serving_node (sectors σ s) = Some v ∧
       σ' = set_sector s
              (Sector None (total_duration (sectors σ s))
                 (total_interference_free (sectors σ s))
                 (period_conn_count (sectors σ s))
                 (serving_duration (sectors σ s))
                 (serving_interference_free (sectors σ s))
                 (neighbour_list (sectors σ s))
                 (MAB_context (sectors σ s)) (MAB_backoff (sectors σ s)))
              (set_vehicle v
                 (Vehicle None (has_interference (vehicles σ v))) σ).
Proof.
  unfold lost_vehicle. intros Hl.
  destruct (serving_node (sectors σ s)) as [v|]; [|done].
  exists v. split; [done|]. simpl in Hl. by injection Hl as <-.
Qed.

Lemma clmab_check_association_cases rad s acc acc' :
  check_association rad s acc = Some acc' →
  acc' = acc ∨
  ∃ v σ', serving_node (sectors (acc.1) s) = Some v ∧
          (VehicleNode v ∉ broadcast rad s) ∧
          lost_vehicle s (acc.1) = Some σ' ∧
          acc' = (σ', acc.2 ++ [(s, v)]).
Proof.
  unfold check_association. intros Hc.
  destruct (serving_node (sectors (acc.1) s)) as [v|] eqn:Hs; [|left; congruence].
  case_bool_decide as Hin; [left; congruence|].
  destruct (lost_vehicle s (acc.1)) as [σ'|] eqn:Hl; [|done].
  right. exists v, σ'. simpl in Hc. by injection Hc as <-.
Qed.

Lemma clmab_reward_lost_cases lost σ σ' :
  reward_lost lost σ = Some σ' →
  σ' = σ ∨ ∃ st, σ' = set_store st σ.
Proof.
  unfold reward_lost. intros Hr.
  destruct (lost_reward lost.1 σ) as [[[c r]|]|]; simpl in Hr; [|left; congruence|done].
  destruct (update_reward (store σ) lost.1 c r) as [st|]; [|done].
  right. exists st. simpl in Hr. congruence.
Qed.

Lemma clmab_new_association_cases rnd t rad s σ σ' :
  new_association rnd t rad s σ = Some σ' →
  σ' = σ ∨
  (serving_node (sectors σ s) = None ∧ is_backoff s t σ = false ∧
   ∃ selected,
     random_choice rnd (rng_pos σ) (detection_list rad s σ) = Some selected ∧
     let σ2 := next_random (next_random σ) in
     let this_context := get_current_context s (next_random σ) in
     ∃ to_serve bound,
       serve_or_backoff s this_context (random_at rnd (S (rng_pos σ))) σ2
         = Some (to_serve, bound) ∧
       ((to_serve = true ∧
         σ' = set_MAB_context s this_context
                (associate_vehicle s selected.1 σ2)) ∨
        (to_serve = false ∧
         ∃ this_threshold, bound = Some this_threshold ∧
                           σ' = backoff s t this_threshold σ2))).
Proof.
  unfold new_association. intros Hstep.
  case_bool_decide as Hserv; [left; congruence|].
  destruct (is_backoff s t σ) eqn:Hb; [left; congruence|].
  case_bool_decide as Hlen; [|left; congruence].
  destruct (random_choice rnd (rng_pos σ) (detection_list rad s σ))
    as [selected|] eqn:Hsel; [|done].
  simpl in Hstep.
  destruct (serve_or_backoff _ _ _ _) as [[to_serve bound]|] eqn:Hv; [|done].
  simpl in Hstep. right.
  split; [done|]. split; [done|]. exists selected. split; [done|].
  exists to_serve, bound. split; [done|].
  destruct to_serve.
  - left. split; [done|]. congruence.
  - right. split; [done|].
    destruct bound as [th|]; [|done]. exists th. split; [done|].
    simpl in Hstep. congruence.
Qed.

Lemma clmab_account_cases d s σ σ' :
  account d s σ = Some σ' →
  σ' = σ ∨
  ∃ x, σ' = set_sector s x σ ∧
       serving_node x = serving_node (sectors σ s) ∧
       MAB_backoff x = MAB_backoff (sectors σ s) ∧
       MAB_context x = MAB_context (sectors σ s) ∧
       neighbour_list x = neighbour_list (sectors σ s).
Proof.
  unfold account. intros Ha.
  destruct (serving_node (sectors σ s)) as [v|] eqn:Hs; [|left; congruence].
  right. eexists. split; [by injection Ha as <-|]. done.
Qed.


(** *** What the loops leave alone *)

Lemma clmab_drop_lost_frame rad l σ σ1 lost :
  drop_lost rad l σ = Some (σ1, lost) →
  schedule σ1 = schedule σ ∧ store σ1 = store σ ∧ rng_pos σ1 = rng_pos σ.
Proof.
  unfold drop_lost. intros Hd.
  pose proof (for_each_frame
    (λ acc : state * list (nat * nat),
       (schedule (acc.1), store (acc.1), rng_pos (acc.1)))
    (check_association rad) l (σ, []) (σ1, lost)) as Hf.
  simpl in Hf. assert (Heq : (schedule σ1, store σ1, rng_pos σ1)
                           = (schedule σ, store σ, rng_pos σ)).
  { apply Hf; [|done]. intros s acc acc' _ Hc.
    apply clmab_check_association_cases in Hc as [->|(v & σ' & _ & _ & Hl & ->)];
      [done|].
    apply clmab_lost_vehicle_cases in Hl as (v' & _ & ->). done. }
  repeat split; [exact (f_equal (λ p, p.1.1) Heq)|exact (f_equal (λ p, p.1.2) Heq)
    |exact (f_equal snd Heq)].
Qed.

Lemma clmab_reward_loop_frame lost σ σ' :
  for_each reward_lost lost σ = Some σ' →
  schedule σ' = schedule σ ∧ sectors σ' = sectors σ ∧
  vehicles σ' = vehicles σ ∧ rng_pos σ' = rng_pos σ.
Proof.
  intros Hr.
  pose proof (for_each_frame
    (λ τ, (schedule τ, sectors τ, vehicles τ, rng_pos τ))
    reward_lost lost σ σ') as Hf.
  simpl in Hf. assert (Heq : (schedule σ', sectors σ', vehicles σ', rng_pos σ')
                           = (schedule σ, sectors σ, vehicles σ, rng_pos σ)).
  { apply Hf; [|done]. intros x τ τ' _ Hx.
    by apply clmab_reward_lost_cases in Hx as [->|[st ->]]. }
  repeat split; [exact (f_equal (λ p, p.1.1.1) Heq)|exact (f_equal (λ p, p.1.1.2) Heq)
    |exact (f_equal (λ p, p.1.2) Heq)|exact (f_equal snd Heq)].
Qed.

Lemma clmab_new_association_frame rnd t rad s σ σ' :
  new_association rnd t rad s σ = Some σ' →
  schedule σ' = schedule σ ∧ store σ' = store σ.
Proof.
  intros Hn.
  by apply clmab_new_association_cases in Hn
    as [->|(_ & _ & sel & _ & ts & bound & _ &
            [[_ ->]|(_ & th & _ & ->)])].
Qed.

Lemma clmab_association_loop_frame rnd t rad l σ σ' :
  for_each (new_association rnd t rad) l σ = Some σ' →
  schedule σ' = schedule σ ∧ store σ' = store σ.
Proof.
  intros Hl.
  pose proof (for_each_frame (λ τ, (schedule τ, store τ))
    (new_association rnd t rad) l σ σ') as Hf.
  simpl in Hf. assert (Heq : (schedule σ', store σ') = (schedule σ, store σ)).
  { apply Hf; [|done]. intros x τ τ' _ Hx.
    apply clmab_new_association_frame in Hx as [-> ->]. done. }
  split; [exact (f_equal fst Heq)|exact (f_equal snd Heq)].
Qed.

Lemma clmab_account_loop_frame d l σ σ' :
  for_each (account d) l σ = Some σ' →
  schedule σ' = schedule σ ∧ store σ' = store σ ∧ vehicles σ' = vehicles σ.
Proof.
  intros Hl.
  pose proof (for_each_frame (λ τ, (schedule τ, store τ, vehicles τ))
    (account d) l σ σ') as Hf.
  simpl in Hf.
  assert (Heq : (schedule σ', store σ', vehicles σ')
              = (schedule σ, store σ, vehicles σ)).
  { apply Hf; [|done]. intros x τ τ' _ Hx.
    by apply clmab_account_cases in Hx as [->|(y & -> & _)]. }
  repeat split; [exact (f_equal (λ p, p.1.1) Heq)|exact (f_equal (λ p, p.1.2) Heq)
    |exact (f_equal snd Heq)].
Qed.


(** [execute], cut at its three loops. *)
Lemma clmab_execute_cases epsilon rnd t d rad av l σ σ' :
  execute epsilon rnd t d rad av l σ = Some σ' →
  ∃ σ1 lost σ2,
    drop_lost rad l (update_schedule epsilon t σ) = Some (σ1, lost) ∧
    for_each reward_lost lost σ1 = Some σ2 ∧
    for_each (new_association rnd t rad) l σ2 = Some σ'.
Proof.
  unfold execute. intros He.
  destruct (drop_lost rad l (update_schedule epsilon t σ))
    as [[σ1 lost]|]; [|done].
  simpl in He.
  destruct (for_each reward_lost lost σ1) as [σ2|] eqn:Hr; [|done].
  by exists σ1, lost, σ2.
Qed.


(** [execute] leaves the schedule as its head sets it. *)
Lemma clmab_execute_schedule epsilon rnd t d rad av l σ σ' :
  execute epsilon rnd t d rad av l σ = Some σ' →
  schedule σ' = schedule (update_schedule epsilon t σ).
Proof.
  intros He.
  apply clmab_execute_cases in He as (σ1 & lost & σ2 & H1 & H2 & H3).
  apply clmab_drop_lost_frame in H1 as (<- & _).
  apply clmab_reward_loop_frame in H2 as (<- & _).
  by apply clmab_association_loop_frame in H3 as (<- & _).
Qed.

(** *** The two invariants, loop by loop *)

Ltac clients_tac HJ :=
  intros ? ?; state_simpl; repeat case_decide; subst; cbn;
  let Ha := fresh "Ha" in
  intros Ha;
  first [ done | congruence | by apply HJ | apply HJ in Ha; congruence ].











Ltac backoff_tac HT :=
  intros ?; unfold is_backoff; state_simpl; repeat case_decide; subst; cbn;
  first [ done | by apply HT ].











(** *** The exploration schedule *)

Lemma clmab_update_schedule_spec epsilon t σ :
  schedule (update_schedule epsilon t σ) =
  (if Qltb t (exploration_time σ) then 1%Q else epsilon,
   exploration_time σ,
   if Qltb t (exploration_time σ) then is_exploration_over σ else true).
Proof. unfold update_schedule. by destruct (Qltb t (exploration_time σ)). Qed.

Lemma clmab_execute_rate epsilon rnd t d rad av l σ σ' :
  execute epsilon rnd t d rad av l σ = Some σ' →
  exploration_rate σ' = (if Qltb t (exploration_time σ) then 1%Q else epsilon) ∧
  exploration_time σ' = exploration_time σ ∧
  is_exploration_over σ' =
    (if Qltb t (exploration_time σ) then is_exploration_over σ else true).
Proof.
  intros He. apply clmab_execute_schedule in He.
  rewrite clmab_update_schedule_spec in He. unfold schedule in He.
  by injection He as -> -> ->.
Qed.

(** *** The decision of the exploitation branch *)

Lemma clmab_exploit_decision_spec (r th : Q) :
  CLMAB.exploit_decision r th = true ↔ (r == 0 ∨ th < r)%Q.
Proof.
  unfold exploit_decision. rewrite orb_true_iff, Qeq_bool_iff, Qltb_lt. done.
Qed.

(** A sector without client whose timer is over, with a candidate picked
    and a draw that is not below the rate: what [new_association] does. *)
Lemma clmab_exploit_step rnd t rad s σ selected r th :
  serving_node (sectors σ s) = None →
  is_backoff s t σ = false →
  random_choice rnd (rng_pos σ) (detection_list rad s σ) = Some selected →
  Qltb (random_at rnd (S (rng_pos σ))) (exploration_rate σ) = false →
  get_reward (store σ) s (Some (get_current_context s σ)) = Some r →
  get_threshold (store σ) s = Some th →
  new_association rnd t rad s σ =
  Some (if exploit_decision r th
        then set_MAB_context s (get_current_context s σ)
               (associate_vehicle s selected.1 (next_random (next_random σ)))
        else backoff s t th (next_random (next_random σ))).
Proof.
  intros Hs Hb Hsel Hdraw Hr Hth. unfold new_association.
  rewrite bool_decide_false by (by rewrite Hs; intros []).
  rewrite Hb.
  assert (Hlen : length (detection_list rad s σ) ≠ 0%nat).
  { intros Hz. unfold random_choice in Hsel.
    destruct (detection_list rad s σ); [done|]. discriminate. }
  rewrite bool_decide_true by done.
  rewrite Hsel. cbn [mbind option_bind].
  unfold serve_or_backoff.
  change (exploration_rate (next_random (next_random σ)))
    with (exploration_rate σ).
  change (rng_pos (next_random σ)) with (S (rng_pos σ)).
  rewrite Hdraw.
  change (store (next_random (next_random σ))) with (store σ).
  change (get_current_context s (next_random σ))
    with (get_current_context s σ).
  rewrite Hr. cbn [mbind option_bind]. rewrite Hth. cbn [mbind option_bind].
  by destruct (exploit_decision r th).
Qed.

(** *** The rewards of the lost connections *)

Lemma clmab_reward_calls_sectors lost σ σ' :
  sectors σ' = sectors σ → reward_calls lost σ' = reward_calls lost σ.
Proof.
  intros Hs. induction lost as [|p rest IH]; simpl; [done|].
  unfold lost_reward. by rewrite Hs, IH.
Qed.

(** The second loop makes the calls of [reward_calls], and nothing else
    writes the tables. *)
Lemma clmab_reward_loop_calls lost σ σ' :
  for_each reward_lost lost σ = Some σ' →
  ∃ calls, reward_calls lost σ = Some calls ∧
           run_updates calls (store σ) = Some (store σ').
Proof.
  revert σ. induction lost as [|p rest IH]; intros σ Hl; simpl in Hl.
  - injection Hl as <-. by exists [].
  - destruct (reward_lost p σ) as [σ1|] eqn:Hp; [|done]. simpl in Hl.
    destruct (IH σ1 Hl) as (calls & Hcalls & Hrun).
    unfold reward_lost in Hp. simpl.
    destruct (lost_reward p.1 σ) as [[[c r]|]|]; simpl in Hp; [| |done].
    + destruct (update_reward (store σ) p.1 c r) as [st|] eqn:Hu; [|done].
      simpl in Hp. injection Hp as Hp.
      assert (Hs : sectors σ1 = sectors σ) by (by rewrite <- Hp).
      assert (Hst : store σ1 = st) by (by rewrite <- Hp).
      rewrite (clmab_reward_calls_sectors rest σ σ1 Hs) in Hcalls.
      rewrite Hcalls. simpl. eexists. split; [done|].
      rewrite run_updates_cons. simpl. rewrite Hu. simpl.
      by rewrite <- Hst.
    + injection Hp as <-. rewrite Hcalls. simpl. by eexists.
Qed.

Lemma clmab_reward_calls_total lost σ : is_Some (reward_calls lost σ).
Proof.
  induction lost as [|p rest [calls IH]]; simpl; [done|].
  rewrite IH. unfold lost_reward.
  destruct (Qeq_bool (serving_duration (sectors σ p.1)) 0) eqn:Hd; [done|].
  rewrite py_div_Some; [done|].
  intros Hz. apply Qeq_bool_iff in Hz. congruence.
Qed.

Lemma clmab_reward_calls_filter s lost σ calls :
  reward_calls lost σ = Some calls →
  reward_calls (filter (λ p, p.1 = s) lost) σ
  = Some (filter (λ call, call.1.1 = s) calls).
Proof.
  revert calls. induction lost as [|p rest IH]; intros calls Hc; simpl in Hc.
  - by injection Hc as <-.
  - destruct (lost_reward p.1 σ) as [call|] eqn:Hp; [|done]. simpl in Hc.
    destruct (reward_calls rest σ) as [calls'|]; [|done]. simpl in Hc.
    injection Hc as <-. specialize (IH calls' eq_refl).
    rewrite list.filter_cons. case_decide as Hs.
    + simpl. rewrite Hp, IH. simpl.
      destruct call as [[c r]|]; [|done].
      by rewrite list.filter_cons, decide_True.
    + rewrite IH. destruct call as [[c r]|]; [|done].
      by rewrite list.filter_cons, decide_False.
Qed.

Lemma clmab_check_association_total rad s acc :
  is_Some (check_association rad s acc).
Proof.
  unfold check_association, lost_vehicle.
  destruct (serving_node (sectors (acc.1) s)); [|done].
  by case_bool_decide.
Qed.

Lemma clmab_check_association_keep rad x σ acc :
  (∀ v, serving_node (sectors σ x) = Some v → VehicleNode v ∈ broadcast rad x) →
  check_association rad x (σ, acc) = Some (σ, acc).
Proof.
  intros Hk. unfold check_association. simpl.
  destruct (serving_node (sectors σ x)) as [v|]; [|done].
  by rewrite bool_decide_true by (by apply Hk).
Qed.

Lemma clmab_check_association_drop rad x σ acc v :
  serving_node (sectors σ x) = Some v →
  VehicleNode v ∉ broadcast rad x →
  ∃ σ', check_association rad x (σ, acc) = Some (σ', acc ++ [(x, v)]) ∧
        serving_node (sectors σ' x) = None ∧
        (∀ s, s ≠ x → sectors σ' s = sectors σ s) ∧
        serving_duration (sectors σ' x) = serving_duration (sectors σ x) ∧
        serving_interference_free (sectors σ' x)
          = serving_interference_free (sectors σ x) ∧
        MAB_context (sectors σ' x) = MAB_context (sectors σ x).
Proof.
  intros Hx Hout. unfold check_association, lost_vehicle. simpl.
  rewrite Hx, bool_decide_false by done. simpl.
  eexists. split; [reflexivity|]. state_simpl.
  destruct (decide (x = x)) as [_|Hxx]; [|done]. cbn.
  split; [done|]. split; [|done].
  intros s Hne. rewrite fn_insert_apply. by rewrite decide_False.
Qed.

(** The first loop: its list holds the sector [s] once if [s] is in the
    list of sectors, serves, and its client does not answer the beacon, and
    not at all otherwise; the durations and the context of [s] are left as
    they are. *)
Lemma clmab_drop_lost_spec rad s l σ acc :
  ∃ σ1 new,
    for_each (check_association rad) l (σ, acc) = Some (σ1, acc ++ new) ∧
    filter (λ p, p.1 = s) new =
      (if bool_decide (s ∈ l) then
         match serving_node (sectors σ s) with
         | Some v =>
             if bool_decide (VehicleNode v ∈ broadcast rad s) then []
             else [(s, v)]
         | None => []
         end
       else []) ∧
    serving_duration (sectors σ1 s) = serving_duration (sectors σ s) ∧
    serving_interference_free (sectors σ1 s)
      = serving_interference_free (sectors σ s) ∧
    MAB_context (sectors σ1 s) = MAB_context (sectors σ s).
Proof.
  revert σ acc. induction l as [|x l IH]; intros σ acc.
  - exists σ, []. simpl. by rewrite app_nil_r.
  - simpl.
    destruct (serving_node (sectors σ x)) as [v|] eqn:Hx;
      [destruct (decide (VehicleNode v ∈ broadcast rad x)) as [Hin|Hout]|].
    + rewrite clmab_check_association_keep
        by (intros v' Hv'; rewrite Hx in Hv'; by injection Hv' as <-).
      simpl. destruct (IH σ acc) as (σ1 & new & Hrun & Hf & Hfields).
      exists σ1, new. split; [done|]. split; [|done].
      rewrite Hf. destruct (decide (s = x)) as [->|Hne].
      * rewrite Hx, (bool_decide_true (_ ∈ broadcast rad x)) by done.
        by repeat case_bool_decide.
      * by rewrite bool_decide_elem_of_cons_ne.
    + destruct (clmab_check_association_drop rad x σ acc v Hx Hout)
        as (σ' & -> & Hnone & Hother & Hd' & Hi' & Hc').
      simpl.
      destruct (IH σ' (acc ++ [(x, v)]))
        as (σ1 & new & Hrun & Hf & Hd & Hi & Hc).
      exists σ1, ((x, v) :: new).
      split; [by rewrite Hrun, <- app_assoc|].
      rewrite list.filter_cons. simpl.
      destruct (decide (x = s)) as [->|Hne].
      * rewrite Hf, Hd, Hi, Hc, Hnone, Hx, Hd', Hi', Hc'.
        rewrite (bool_decide_true (s ∈ s :: l)) by left.
        rewrite (bool_decide_false (_ ∈ broadcast rad s)) by done.
        split; [by case_bool_decide|done].
      * rewrite Hf, Hd, Hi, Hc, Hother by done. split; [|done].
        by rewrite (bool_decide_elem_of_cons_ne s x) by done.
    + rewrite clmab_check_association_keep by (intros v' Hv'; congruence).
      simpl. destruct (IH σ acc) as (σ1 & new & Hrun & Hf & Hfields).
      exists σ1, new. split; [done|]. split; [|done].
      rewrite Hf. destruct (decide (s = x)) as [->|Hne].
      * rewrite Hx. by repeat case_bool_decide.
      * by rewrite bool_decide_elem_of_cons_ne.
Qed.

Lemma clmab_update_schedule_sectors epsilon t σ :
  sectors (update_schedule epsilon t σ) = sectors σ ∧
  store (update_schedule epsilon t σ) = store σ.
Proof. unfold update_schedule. by case_match. Qed.

(** What a call of [execute] writes into the tables. *)
Lemma clmab_execute_store epsilon rnd t d rad av l σ σ' :
  execute epsilon rnd t d rad av l σ = Some σ' →
  ∃ calls,
    execute_calls rad l (update_schedule epsilon t σ) = Some calls ∧
    run_updates calls (store σ) = Some (store σ').
Proof.
  intros He.
  apply clmab_execute_cases in He as (σ1 & lost & σ2 & H1 & H2 & H3).
  apply clmab_association_loop_frame in H3 as [_ ->].
  apply clmab_reward_loop_calls in H2 as (calls & Hcalls & Hrun).
  pose proof (clmab_drop_lost_frame _ _ _ _ _ H1) as (_ & Hst & _).
  rewrite Hst in Hrun.
  destruct (clmab_update_schedule_sectors epsilon t σ) as [_ Hst0].
  rewrite Hst0 in Hrun. exists calls. split; [|done].
  unfold execute_calls. by rewrite H1.
Qed.

(** An association stores the context of the moment it is made. *)
Lemma clmab_association_context rnd t rad s σ σ' v :
  new_association rnd t rad s σ = Some σ' →
  serving_node (sectors σ s) = None →
  serving_node (sectors σ' s) = Some v →
  MAB_context (sectors σ' s) = Some (get_current_context s σ).
Proof.
  intros Hn Hs Hs'.
  apply clmab_new_association_cases in Hn
    as [->|(_ & _ & sel & _ & ts & bound & _ &
            [[_ ->]|(_ & th & _ & ->)])].
  - congruence.
  - state_simpl. by destruct (decide (s = s)).
  - revert Hs'. state_simpl. destruct (decide (s = s)); [|done]. cbn.
    congruence.
Qed.

End CLMAB_facts.
(** ** [MACOLSolution]: what the loops of [execute] do *)

Module Toy_facts.
Import Toy.

Ltac state_simpl :=
  unfold set_MAB_context, associate_vehicle, backoff, next_random,
    set_store, set_schedule, set_station, set_vehicle in *;
  cbn [stations vehicles epsilon exploration_rate exploration_time
       is_full_exploration store rng_pos serving_vehicle
       total_serving_duration total_serving_count serving_duration
       serving_inter_free MAB_context MACOL_backoff associated_bs
       signal_count fst snd] in *;
  rewrite ?fn_insert_apply in *.

(** *** The bodies of the loops, case by case *)

Lemma toy_lost_vehicle_cases b σ σ' :
  lost_vehicle b σ = Some σ' →
  ∃ d v,
    serving_duration (stations σ b) = Some d ∧
    serving_vehicle (stations σ b) = Some v ∧
    (∀ b', stations σ' b' =
           if decide (b = b') then
             BaseStation None (total_serving_duration (stations σ b) + d)%Q
               (total_serving_count (stations σ b) + 1)
               (serving_duration (stations σ b))
               (serving_inter_free (stations σ b))
               (MAB_context (stations σ b)) (MACOL_backoff (stations σ b))
           else stations σ b') ∧
    (∀ v', vehicles σ' v' =
           if decide (v = v') then Vehicle None (signal_count (vehicles σ v))
           else vehicles σ v') ∧
    schedule σ' = schedule σ ∧ store σ' = store σ ∧ rng_pos σ' = rng_pos σ.
Proof.
  unfold lost_vehicle. intros Hl.
  destruct (serving_duration (stations σ b)) as [d|] eqn:Hd; [|done].
  simpl in Hl. state_simpl. rewrite decide_True in Hl by done.
  cbn in Hl. destruct (serving_vehicle (stations σ b)) as [v|] eqn:Hv; [|done].
  cbn in Hl. injection Hl as <-. exists d, v.
  split; [done|]. split; [done|]. cbn.
  split; [|split; [|done]].
  - intros b'. rewrite !fn_insert_apply. by repeat case_decide.
  - intros v'. rewrite !fn_insert_apply. by repeat case_decide.
Qed.

Lemma toy_check_association_cases reach b acc acc' :
  check_association reach b acc = Some acc' →
  acc' = acc ∨
  ∃ v σ', serving_vehicle (stations (acc.1) b) = Some v ∧
          reach b v = false ∧
          lost_vehicle b (acc.1) = Some σ' ∧
          acc' = (σ', acc.2 ++ [(b, v)]).
Proof.
  unfold check_association. intros Hc.
  destruct (serving_vehicle (stations (acc.1) b)) as [v|] eqn:Hs;
    [|left; congruence].
  destruct (reach b v) eqn:Hreach; [left; congruence|].
  destruct (lost_vehicle b (acc.1)) as [σ'|] eqn:Hl; [|done].
  right. exists v, σ'. simpl in Hc. by injection Hc as <-.
Qed.

Lemma toy_reward_lost_cases lost σ σ' :
  reward_lost lost σ = Some σ' →
  ∃ context the_reward st,
    lost_reward lost.1 σ = Some (context, the_reward) ∧
    update_reward (store σ) lost.1 context the_reward = Some st ∧
    σ' = set_store st σ.
Proof.
  unfold reward_lost. intros Hr.
  destruct (lost_reward lost.1 σ) as [[c r]|]; simpl in Hr; [|done].
  destruct (update_reward (store σ) lost.1 c r) as [st|] eqn:Hu; [|done].
  exists c, r, st. simpl in Hr. by injection Hr as <-.
Qed.

Lemma toy_new_association_cases rnd t reach vl bl b σ σ' :
  new_association rnd t reach vl bl b σ = Some σ' →
  σ' = σ ∨
  (serving_vehicle (stations σ b) = None ∧ is_backoff b t σ = false ∧
   ∃ selected,
     random_choice rnd (rng_pos σ) (reachable_vehicles reach b vl σ)
       = Some selected ∧
     let σ2 := next_random (next_random σ) in
     let this_context := get_current_context b bl (next_random σ) in
     ∃ to_serve,
       serve_or_backoff b this_context (random_at rnd (S (rng_pos σ))) σ2
         = Some to_serve ∧
       ((to_serve = true ∧
         σ' = set_MAB_context b this_context
                (associate_vehicle b selected σ2)) ∨
        (to_serve = false ∧
         ∃ duration, get_average_serving_duration b σ2 = Some duration ∧
                     σ' = backoff b t duration σ2))).
Proof.
  unfold new_association. intros Hstep.
  case_bool_decide as Hserv; [left; congruence|].
  destruct (is_backoff b t σ) eqn:Hb; [left; congruence|].
  case_bool_decide as Hlen; [|left; congruence].
  destruct (random_choice rnd (rng_pos σ) (reachable_vehicles reach b vl σ))
    as [selected|] eqn:Hsel; [|done].
  simpl in Hstep.
  destruct (serve_or_backoff _ _ _ _) as [to_serve|] eqn:Hv; [|done].
  simpl in Hstep. right.
  split; [done|]. split; [done|]. exists selected. split; [done|].
  exists to_serve. split; [done|].
  destruct to_serve.
  - left. split; [done|]. congruence.
  - right. split; [done|].
    destruct (get_average_serving_duration _ _) as [dur|]; [|done].
    exists dur. split; [done|]. simpl in Hstep. congruence.
Qed.

Lemma toy_check_interference_cases ep bl v σ σ' :
  check_interference ep bl v σ = Some σ' →
  σ' = σ ∨
  ∃ count, σ' = set_vehicle v (Vehicle (associated_bs (vehicles σ v)) count) σ.
Proof.
  unfold check_interference. intros Hc.
  destruct (negb (is_connected v σ)); [left; congruence|].
  right. eexists. by injection Hc as <-.
Qed.

Lemma toy_account_cases b σ σ' :
  account b σ = Some σ' →
  schedule σ' = schedule σ ∧ store σ' = store σ ∧ vehicles σ' = vehicles σ ∧
  rng_pos σ' = rng_pos σ ∧
  ∀ b',
    serving_vehicle (stations σ' b') = serving_vehicle (stations σ b') ∧
    total_serving_duration (stations σ' b')
      = total_serving_duration (stations σ b') ∧
    total_serving_count (stations σ' b') = total_serving_count (stations σ b') ∧
    MAB_context (stations σ' b') = MAB_context (stations σ b') ∧
    MACOL_backoff (stations σ' b') = MACOL_backoff (stations σ b') ∧
    (is_Some (serving_duration (stations σ b')) →
     is_Some (serving_duration (stations σ' b'))) ∧
    (is_Some (serving_inter_free (stations σ b')) →
     is_Some (serving_inter_free (stations σ' b'))).
Proof.
  unfold account. intros Ha.
  destruct (serving_vehicle (stations σ b)) as [v|] eqn:Hs;
    [|by injection Ha as <-].
  destruct (serving_duration (stations σ b)) as [d|] eqn:Hd; [|done].
  cbn in Ha. state_simpl. case_bool_decide as Hsig.
  - rewrite decide_True in Ha by done. cbn in Ha.
    destruct (serving_inter_free (stations σ b)) as [f|] eqn:Hf; [|done].
    cbn in Ha. injection Ha as <-. cbn.
    do 4 (split; [done|]). intros b'. rewrite !fn_insert_apply.
    case_decide; subst; cbn; rewrite ?Hs, ?Hd, ?Hf; by eauto 10.
  - injection Ha as <-. cbn.
    do 4 (split; [done|]). intros b'. rewrite !fn_insert_apply.
    case_decide; subst; cbn; rewrite ?Hs, ?Hd; by eauto 10.
Qed.

Lemma toy_update_vehicle_cases ep v σ σ' :
  update_vehicle ep v σ = Some σ' →
  σ' = σ ∨ σ' = set_vehicle v (Vehicle None 0) σ.
Proof.
  unfold update_vehicle. intros Hu.
  destruct (resets ep v); injection Hu as <-; eauto.
Qed.

(** *** What the loops leave alone *)

Lemma toy_drop_lost_frame reach l σ σ1 lost :
  drop_lost reach l σ = Some (σ1, lost) →
  schedule σ1 = schedule σ ∧ store σ1 = store σ ∧ rng_pos σ1 = rng_pos σ.
Proof.
  unfold drop_lost. intros Hd.
  pose proof (for_each_frame
    (λ acc : state * list (nat * nat),
       (schedule (acc.1), store (acc.1), rng_pos (acc.1)))
    (check_association reach) l (σ, []) (σ1, lost)) as Hf.
  simpl in Hf. assert (Heq : (schedule σ1, store σ1, rng_pos σ1)
                           = (schedule σ, store σ, rng_pos σ)).
  { apply Hf; [|done]. intros s acc acc' _ Hc.
    apply toy_check_association_cases in Hc as [->|(v & σ' & _ & _ & Hl & ->)];
      [done|].
    apply toy_lost_vehicle_cases in Hl as (d & v' & _ & _ & _ & _ & H1 & H2 & H3).
    simpl. by rewrite H1, H2, H3. }
  repeat split; [exact (f_equal (λ p, p.1.1) Heq)|exact (f_equal (λ p, p.1.2) Heq)
    |exact (f_equal snd Heq)].
Qed.

Lemma toy_reward_loop_frame lost σ σ' :
  for_each reward_lost lost σ = Some σ' →
  schedule σ' = schedule σ ∧ stations σ' = stations σ ∧
  vehicles σ' = vehicles σ ∧ rng_pos σ' = rng_pos σ.
Proof.
  intros Hr.
  pose proof (for_each_frame
    (λ τ, (schedule τ, stations τ, vehicles τ, rng_pos τ))
    reward_lost lost σ σ') as Hf.
  simpl in Hf. assert (Heq : (schedule σ', stations σ', vehicles σ', rng_pos σ')
                           = (schedule σ, stations σ, vehicles σ, rng_pos σ)).
  { apply Hf; [|done]. intros x τ τ' _ Hx.
    by apply toy_reward_lost_cases in Hx as (c & r & st & _ & _ & ->). }
  repeat split; [exact (f_equal (λ p, p.1.1.1) Heq)|exact (f_equal (λ p, p.1.1.2) Heq)
    |exact (f_equal (λ p, p.1.2) Heq)|exact (f_equal snd Heq)].
Qed.

Lemma toy_new_association_frame rnd t reach vl bl b σ σ' :
  new_association rnd t reach vl bl b σ = Some σ' →
  schedule σ' = schedule σ ∧ store σ' = store σ ∧
  ∀ b', total_serving_count (stations σ' b')
        = total_serving_count (stations σ b').
Proof.
  intros Hn.
  apply toy_new_association_cases in Hn
    as [->|(_ & _ & sel & _ & ts & _ & [[_ ->]|(_ & th & _ & ->)])];
    [done|..]; (split; [done|]; split; [done|]);
    intros b'; state_simpl; by repeat case_decide; subst.
Qed.

Lemma toy_association_loop_frame rnd t reach vl bl l σ σ' :
  for_each (new_association rnd t reach vl bl) l σ = Some σ' →
  schedule σ' = schedule σ ∧ store σ' = store σ ∧
  ∀ b', total_serving_count (stations σ' b')
        = total_serving_count (stations σ b').
Proof.
  intros Hl.
  apply (for_each_inv
    (λ τ, schedule τ = schedule σ ∧ store τ = store σ ∧
          ∀ b', total_serving_count (stations τ b')
                = total_serving_count (stations σ b'))
    _ _ _ _) in Hl; [done| |done].
  intros x τ τ' _ (H1 & H2 & H3) Hx.
  apply toy_new_association_frame in Hx as (-> & -> & Hc).
  split; [done|]. split; [done|]. intros b'. by rewrite Hc.
Qed.

(** [execute] and the simulation step, cut at their loops. *)
Lemma toy_execute_cases rnd t reach vl bl σ σ' :
  execute rnd t reach vl bl σ = Some σ' →
  ∃ σ1 lost σ2,
    drop_lost reach bl (update_schedule t σ) = Some (σ1, lost) ∧
    for_each reward_lost lost σ1 = Some σ2 ∧
    for_each (new_association rnd t reach vl bl) bl σ2 = Some σ'.
Proof.
  unfold execute. intros He.
  destruct (drop_lost reach bl (update_schedule t σ))
    as [[σ1 lost]|]; [|done].
  simpl in He.
  destruct (for_each reward_lost lost σ1) as [σ2|] eqn:Hr; [|done].
  by exists σ1, lost, σ2.
Qed.

Lemma toy_loop_step_cases rnd vl bl ep σ σ' :
  loop_step rnd vl bl ep σ = Some σ' →
  ∃ σ1 σ2 σ3,
    execute rnd (sim_tick ep) (can_reach ep) vl bl σ = Some σ1 ∧
    for_each (check_interference ep bl) vl σ1 = Some σ2 ∧
    for_each account bl σ2 = Some σ3 ∧
    for_each (update_vehicle ep) vl σ3 = Some σ'.
Proof.
  unfold loop_step. intros Hd.
  destruct (execute _ _ _ _ _ σ) as [σ1|]; [|done].
  cbn [mbind option_bind] in Hd.
  destruct (for_each (check_interference ep bl) vl σ1) as [σ2|] eqn:H2; [|done].
  cbn [mbind option_bind] in Hd.
  destruct (for_each account bl σ2) as [σ3|] eqn:H3; [|done].
  cbn [mbind option_bind] in Hd.
  by exists σ1, σ2, σ3.
Qed.

Lemma toy_execute_schedule rnd t reach vl bl σ σ' :
  execute rnd t reach vl bl σ = Some σ' →
  schedule σ' = schedule (update_schedule t σ).
Proof.
  intros He.
  apply toy_execute_cases in He as (σ1 & lost & σ2 & H1 & H2 & H3).
  apply toy_drop_lost_frame in H1 as (<- & _).
  apply toy_reward_loop_frame in H2 as (<- & _).
  by apply toy_association_loop_frame in H3 as (<- & _).
Qed.

Lemma toy_loop_step_schedule rnd vl bl ep σ σ' :
  loop_step rnd vl bl ep σ = Some σ' →
  schedule σ' = schedule (update_schedule (sim_tick ep) σ).
Proof.
  intros Hs.
  apply toy_loop_step_cases in Hs as (σ1 & σ2 & σ3 & H1 & H2 & H3 & H4).
  apply toy_execute_schedule in H1 as <-.
  transitivity (schedule σ3).
  { apply (for_each_frame schedule _ _ _ _) in H4; [done|].
    intros v τ τ' _ Hu.
    by apply toy_update_vehicle_cases in Hu as [->| ->]. }
  transitivity (schedule σ2).
  { apply (for_each_frame schedule _ _ _ _) in H3; [done|].
    intros b τ τ' _ Ha. by apply toy_account_cases in Ha as (-> & _). }
  apply (for_each_frame schedule _ _ _ _) in H2; [done|].
  intros v τ τ' _ Hc.
  by apply toy_check_interference_cases in Hc as [->|[n ->]].
Qed.

(** *** The invariants, loop by loop *)

Ltac clients_tac HJ :=
  intros ? ?; state_simpl; repeat case_decide; subst; cbn;
  let Ha := fresh "Ha" in
  intros Ha;
  first [ done | congruence | by apply HJ | apply HJ in Ha; congruence ].









Ltac backoff_tac HT :=
  intros ?; unfold is_backoff; state_simpl; repeat case_decide; subst; cbn;
  first [ done | by apply HT ].










(** *** Connections counted before contexts are learned *)

Lemma toy_counted_lost_vehicle b σ σ' :
  counted σ → lost_vehicle b σ = Some σ' →
  counted σ' ∧ 1 ≤ total_serving_count (stations σ' b) ∧
  ∀ b', total_serving_count (stations σ b')
        ≤ total_serving_count (stations σ' b').
Proof.
  intros HC Hl.
  apply toy_lost_vehicle_cases in Hl
    as (d & v & Hd & Hs & Hst & _ & _ & Hstore & _).
  assert (Hmono : ∀ b', total_serving_count (stations σ b')
                        ≤ total_serving_count (stations σ' b')).
  { intros b'. rewrite Hst. case_decide; subst; cbn; lia. }
  split; [|split; [|done]].
  - intros b'. destruct (HC b') as [H0 H1]. specialize (Hmono b').
    split; [lia|]. rewrite Hstore. intros tv c r Htv Hc.
    specialize (H1 tv c r Htv Hc). lia.
  - rewrite Hst, decide_True by done. cbn.
    destruct (HC b) as [H0 _]. lia.
Qed.

Lemma toy_counted_drop_lost reach l σ σ1 lost :
  counted σ → drop_lost reach l σ = Some (σ1, lost) →
  counted σ1 ∧ ∀ p, p ∈ lost → 1 ≤ total_serving_count (stations σ1 p.1).
Proof.
  intros HC Hd.
  apply (for_each_inv
           (λ acc : state * list (nat * nat),
              counted (acc.1) ∧
              ∀ p, p ∈ acc.2 → 1 ≤ total_serving_count (stations (acc.1) p.1))
           (check_association reach) l (σ, []) (σ1, lost)) in Hd; [done| |].
  - intros s acc acc' _ [Hacc Hlost] Hc.
    apply toy_check_association_cases in Hc as [->|(v & σ' & _ & _ & Hl & ->)];
      [done|].
    destruct (toy_counted_lost_vehicle _ _ _ Hacc Hl) as (HC' & H1 & Hmono).
    split; [done|]. simpl. intros p Hp.
    apply elem_of_app in Hp as [Hp|Hp].
    + specialize (Hlost p Hp). specialize (Hmono p.1). lia.
    + apply list_elem_of_singleton in Hp as ->. done.
  - split; [done|]. intros p Hp. by apply elem_of_nil in Hp.
Qed.

Lemma toy_counted_reward_loop lost σ σ' :
  counted σ →
  (∀ p, p ∈ lost → 1 ≤ total_serving_count (stations σ p.1)) →
  for_each reward_lost lost σ = Some σ' → counted σ'.
Proof.
  intros HC Hlost Hr.
  apply (for_each_inv (λ τ, counted τ ∧ stations τ = stations σ)
           reward_lost lost σ σ') in Hr; [by destruct Hr|  |done].
  intros p τ τ' Hp [Hτ Hst] Hx.
  apply toy_reward_lost_cases in Hx as (c & r & st & _ & Hu & ->).
  split; [|done]. intros b. destruct (Hτ b) as [H0 H1]. cbn.
  split; [done|]. intros tv c' r' Htv Hc.
  destruct (decide (b = p.1)) as [->|Hne].
  - rewrite Hst. by apply Hlost.
  - destruct (update_reward_other _ _ _ _ _ b Hu Hne) as [Hv _].
    rewrite Hv in Htv. by eapply H1.
Qed.

Lemma toy_counted_association_loop rnd t reach vl bl l σ σ' :
  counted σ →
  for_each (new_association rnd t reach vl bl) l σ = Some σ' → counted σ'.
Proof.
  intros HC Hl.
  apply toy_association_loop_frame in Hl as (_ & Hstore & Hcount).
  intros b. rewrite Hcount, Hstore. apply HC.
Qed.

Lemma toy_counted_execute rnd t reach vl bl σ σ' :
  counted σ → execute rnd t reach vl bl σ = Some σ' → counted σ'.
Proof.
  intros HC He.
  apply toy_execute_cases in He as (σ1 & lost & σ2 & H1 & H2 & H3).
  assert (HC0 : counted (update_schedule t σ)).
  { unfold update_schedule. by repeat case_match. }
  destruct (toy_counted_drop_lost _ _ _ _ _ HC0 H1) as [HC1 Hlost].
  pose proof (toy_counted_reward_loop _ _ _ HC1 Hlost H2) as HC2.
  by eapply toy_counted_association_loop.
Qed.

Lemma toy_counted_loop_step rnd vl bl ep σ σ' :
  counted σ → loop_step rnd vl bl ep σ = Some σ' → counted σ'.
Proof.
  intros HC Hs.
  apply toy_loop_step_cases in Hs as (σ1 & σ2 & σ3 & H1 & H2 & H3 & H4).
  pose proof (toy_counted_execute _ _ _ _ _ _ _ HC H1) as HC1.
  assert (HC2 : counted σ2).
  { apply (for_each_inv counted _ _ _ _) in H2; [done| |done].
    intros v τ τ' _ Hτ Hc.
    by apply toy_check_interference_cases in Hc as [->|[n ->]]. }
  assert (HC3 : counted σ3).
  { apply (for_each_inv counted _ _ _ _) in H3; [done| |done].
    intros b τ τ' _ Hτ Ha.
    apply toy_account_cases in Ha as (_ & Hstore & _ & _ & Hst).
    intros b'. rewrite Hstore.
    destruct (Hst b') as (_ & _ & -> & _). apply Hτ. }
  apply (for_each_inv counted _ _ _ _) in H4; [done| |done].
  intros v τ τ' _ Hτ Hu.
  by apply toy_update_vehicle_cases in Hu as [->| ->].
Qed.

Lemma toy_counted_run rnd vl bl eps σ σ' :
  counted σ → run rnd vl bl eps σ = Some σ' → counted σ'.
Proof.
  intros HC Hr.
  apply (for_each_inv counted _ _ _ _
           (λ ep τ τ' _ Hτ, toy_counted_loop_step rnd vl bl ep τ τ' Hτ)
           HC Hr).
Qed.

Lemma toy_counted_init bl : counted (init bl).
Proof.
  intros b. split; [done|]. intros tv c r Htv Hc.
  apply qstore_init_empty in Htv as ->. by rewrite lookup_empty in Hc.
Qed.

(** *** The exploration schedule *)

Lemma toy_update_schedule_spec t σ :
  schedule (update_schedule t σ) =
  (epsilon σ,
   if is_full_exploration σ && Qltb (exploration_time σ) t
   then epsilon σ else exploration_rate σ,
   exploration_time σ,
   is_full_exploration σ && negb (Qltb (exploration_time σ) t)).
Proof.
  unfold update_schedule, schedule.
  destruct (is_full_exploration σ) eqn:Hf; [|by rewrite Hf].
  destruct (Qltb (exploration_time σ) t); [done|]. by rewrite Hf.
Qed.

(** The schedule after a run from the initial state: the rate is [1.0]
    until a step comes at a time past [exploration_time], and [epsilon]
    from that step on. *)
Lemma toy_run_schedule rnd vl bl eps σ :
  run rnd vl bl eps (init bl) = Some σ →
  schedule σ =
  (5 # 100,
   if existsb (λ ep, Qltb 8000 (sim_tick ep)) eps then 5 # 100 else 1,
   8000,
   negb (existsb (λ ep, Qltb 8000 (sim_tick ep)) eps))%Q.
Proof.
  unfold run. revert σ.
  induction eps as [|ep eps IH] using rev_ind; intros σ Hr.
  - by injection Hr as <-.
  - rewrite for_each_snoc in Hr.
    destruct (for_each (loop_step rnd vl bl) eps (init bl)) as [σ0|]; [|done].
    simpl in Hr. specialize (IH σ0 eq_refl).
    apply toy_loop_step_schedule in Hr.
    rewrite Hr, toy_update_schedule_spec. unfold schedule in IH.
    injection IH as -> -> -> ->.
    rewrite existsb_app. simpl. rewrite orb_false_r.
    destruct (existsb (λ ep0, Qltb 8000 (sim_tick ep0)) eps); simpl; [done|].
    by destruct (Qltb 8000 (sim_tick ep)).
Qed.

(** *** The decision of the exploitation branch *)

Lemma toy_exploit_decision_spec (r th : Q) :
  Toy.exploit_decision r th = true ↔ (r == 0 ∨ th < r)%Q.
Proof.
  unfold exploit_decision. rewrite orb_true_iff, Qeq_bool_iff, Qltb_lt. done.
Qed.

(** A station without client whose timer is over, with a candidate picked
    and a draw that is not below the rate: what [new_association] does. *)
Lemma toy_exploit_step rnd t reach vl bl b σ selected r th :
  serving_vehicle (stations σ b) = None →
  is_backoff b t σ = false →
  random_choice rnd (rng_pos σ) (reachable_vehicles reach b vl σ)
    = Some selected →
  Qltb (random_at rnd (S (rng_pos σ))) (exploration_rate σ) = false →
  get_reward (store σ) b (get_current_context b bl σ) = Some r →
  get_threshold (store σ) b = Some th →
  new_association rnd t reach vl bl b σ =
  if exploit_decision r th
  then Some (set_MAB_context b (get_current_context b bl σ)
               (associate_vehicle b selected (next_random (next_random σ))))
  else duration ← get_average_serving_duration b σ;
       Some (backoff b t duration (next_random (next_random σ))).
Proof.
  intros Hs Hb Hsel Hdraw Hr Hth. unfold new_association.
  rewrite bool_decide_false by (by rewrite Hs; intros []).
  rewrite Hb.
  assert (Hlen : length (reachable_vehicles reach b vl σ) ≠ 0%nat).
  { intros Hz. unfold random_choice in Hsel.
    destruct (reachable_vehicles reach b vl σ); [done|]. discriminate. }
  rewrite bool_decide_true by done.
  rewrite Hsel. cbn [mbind option_bind].
  unfold serve_or_backoff.
  change (exploration_rate (next_random (next_random σ)))
    with (exploration_rate σ).
  change (rng_pos (next_random σ)) with (S (rng_pos σ)).
  rewrite Hdraw.
  change (store (next_random (next_random σ))) with (store σ).
  change (get_current_context b bl (next_random σ))
    with (get_current_context b bl σ).
  rewrite Hr. cbn [mbind option_bind]. rewrite Hth. cbn [mbind option_bind].
  by destruct (exploit_decision r th).
Qed.

(** *** The rewards of the lost connections *)

Lemma toy_reward_calls_stations lost σ σ' :
  stations σ' = stations σ → reward_calls lost σ' = reward_calls lost σ.
Proof.
  intros Hs. induction lost as [|p rest IH]; simpl; [done|].
  unfold lost_reward. by rewrite Hs, IH.
Qed.

(** The second loop makes the calls of [reward_calls], and nothing else
    writes the tables. *)
Lemma toy_reward_loop_calls lost σ σ' :
  for_each reward_lost lost σ = Some σ' →
  ∃ calls, reward_calls lost σ = Some calls ∧
           run_updates calls (store σ) = Some (store σ').
Proof.
  revert σ. induction lost as [|p rest IH]; intros σ Hl; simpl in Hl.
  - injection Hl as <-. by exists [].
  - destruct (reward_lost p σ) as [σ1|] eqn:Hp; [|done]. simpl in Hl.
    destruct (IH σ1 Hl) as (calls & Hcalls & Hrun).
    apply toy_reward_lost_cases in Hp as (c & r & st & Hlr & Hu & ->).
    rewrite (toy_reward_calls_stations rest σ (set_store st σ) eq_refl)
      in Hcalls.
    simpl. rewrite Hlr, Hcalls. simpl. eexists. split; [done|].
    rewrite run_updates_cons. simpl. rewrite Hu. exact Hrun.
Qed.

Lemma toy_reward_calls_filter b lost σ calls :
  reward_calls lost σ = Some calls →
  reward_calls (filter (λ p, p.1 = b) lost) σ
  = Some (filter (λ call, call.1.1 = b) calls).
Proof.
  revert calls. induction lost as [|p rest IH]; intros calls Hc; simpl in Hc.
  - by injection Hc as <-.
  - destruct (lost_reward p.1 σ) as [call|] eqn:Hp; [|done]. simpl in Hc.
    destruct (reward_calls rest σ) as [calls'|]; [|done]. simpl in Hc.
    injection Hc as <-. specialize (IH calls' eq_refl).
    rewrite !list.filter_cons. simpl. case_decide as Hs.
    + simpl. by rewrite Hp, IH.
    + exact IH.
Qed.

(** The first loop: its list holds the station [b] once if [b] is in the
    list of stations, serves, and cannot reach its client, and not at all
    otherwise; the interference-free duration and the context of [b] are
    left as they are. *)
Lemma toy_drop_lost_spec reach b l σ acc σ1 lost :
  for_each (check_association reach) l (σ, acc) = Some (σ1, lost) →
  ∃ new,
    lost = acc ++ new ∧
    filter (λ p, p.1 = b) new =
      (if bool_decide (b ∈ l) then
         match serving_vehicle (stations σ b) with
         | Some v => if reach b v then [] else [(b, v)]
         | None => []
         end
       else []) ∧
    serving_inter_free (stations σ1 b) = serving_inter_free (stations σ b) ∧
    MAB_context (stations σ1 b) = MAB_context (stations σ b).
Proof.
  revert σ acc. induction l as [|x l IH]; intros σ acc Hrun.
  - injection Hrun as <- <-. exists []. by rewrite app_nil_r.
  - simpl in Hrun.
    destruct (check_association reach x (σ, acc)) as [[σ' acc']|] eqn:Hc;
      [|done].
    simpl in Hrun. destruct (IH σ' acc' Hrun) as (new & -> & Hf & Hi & Hctx).
    unfold check_association in Hc. simpl in Hc.
    destruct (serving_vehicle (stations σ x)) as [v|] eqn:Hx;
      [destruct (reach x v) eqn:Hreach|].
    + injection Hc as <- <-. exists new. split; [done|]. split; [|done].
      rewrite Hf. destruct (decide (b = x)) as [->|Hne].
      * rewrite Hx, Hreach. by repeat case_bool_decide.
      * by rewrite bool_decide_elem_of_cons_ne.
    + destruct (lost_vehicle x σ) as [τ|] eqn:Hl; [|done]. simpl in Hc.
      injection Hc as <- <-.
      apply toy_lost_vehicle_cases in Hl
        as (d & v' & Hd & Hv' & Hst & _).
      exists ((x, v) :: new). split; [by rewrite <- app_assoc|].
      rewrite list.filter_cons. simpl. rewrite Hf, Hi, Hctx, !Hst.
      destruct (decide (x = b)) as [->|Hne]; cbn.
      * rewrite Hx, Hreach.
        rewrite (bool_decide_true (b ∈ b :: l)) by left.
        split; [by case_bool_decide|done].
      * split; [|done]. by rewrite (bool_decide_elem_of_cons_ne b x).
    + injection Hc as <- <-. exists new. split; [done|]. split; [|done].
      rewrite Hf. destruct (decide (b = x)) as [->|Hne].
      * rewrite Hx. by repeat case_bool_decide.
      * by rewrite bool_decide_elem_of_cons_ne.
Qed.

Lemma toy_update_schedule_stations t σ :
  stations (update_schedule t σ) = stations σ ∧
  store (update_schedule t σ) = store σ.
Proof. unfold update_schedule. by repeat case_match. Qed.

(** What a call of [execute] writes into the tables. *)
Lemma toy_execute_store rnd t reach vl bl σ σ' :
  execute rnd t reach vl bl σ = Some σ' →
  ∃ calls,
    execute_calls reach bl (update_schedule t σ) = Some calls ∧
    run_updates calls (store σ) = Some (store σ').
Proof.
  intros He.
  apply toy_execute_cases in He as (σ1 & lost & σ2 & H1 & H2 & H3).
  apply toy_association_loop_frame in H3 as (_ & -> & _).
  apply toy_reward_loop_calls in H2 as (calls & Hcalls & Hrun).
  pose proof (toy_drop_lost_frame _ _ _ _ _ H1) as (_ & Hst & _).
  rewrite Hst in Hrun.
  destruct (toy_update_schedule_stations t σ) as [_ Hst0].
  rewrite Hst0 in Hrun. exists calls. split; [|done].
  unfold execute_calls. by rewrite H1.
Qed.

(** An association stores the context of the moment it is made. *)
Lemma toy_association_context rnd t reach vl bl b σ σ' v :
  new_association rnd t reach vl bl b σ = Some σ' →
  serving_vehicle (stations σ b) = None →
  serving_vehicle (stations σ' b) = Some v →
  MAB_context (stations σ' b) = Some (get_current_context b bl σ).
Proof.
  intros Hn Hs Hs'.
  apply toy_new_association_cases in Hn
    as [->|(_ & _ & sel & _ & ts & _ &
            [[_ ->]|(_ & th & _ & ->)])].
  - congruence.
  - state_simpl. by destruct (decide (b = b)).
  - revert Hs'. state_simpl. destruct (decide (b = b)); [|done]. cbn.
    congruence.
Qed.

End Toy_facts.
(** * The claims *)

(** ** The exploration schedule *)

(** C3, as amended.  In [CLMAB] the rate of a call of [execute] at time [t]
    is exactly [1.0] when [t < exploration_time] and exactly [epsilon] when
    [t >= exploration_time], the boundary included.  In the toy example,
    after any run from the initial state, the rate of a call at time [t] is
    exactly [epsilon] when [t > exploration_time], and exactly [1.0] when
    [t <= exploration_time] and no earlier step came at a time past
    [exploration_time]; so it is [1.0] at the boundary. *)
Theorem exploration_rate_by_time :
  (∀ epsilon rnd t d rad av l σ σ',
     CLMAB.execute epsilon rnd t d rad av l σ = Some σ' →
     ((t < CLMAB.exploration_time σ)%Q → CLMAB.exploration_rate σ' = 1%Q) ∧
     ((CLMAB.exploration_time σ <= t)%Q →
      CLMAB.exploration_rate σ' = epsilon)) ∧
  (∀ rnd vl bl eps t reach σ σ',
     Toy.run rnd vl bl eps (Toy.init bl) = Some σ →
     Toy.execute rnd t reach vl bl σ = Some σ' →
     Toy.exploration_time σ = 8000%Q ∧ Toy.epsilon σ = (5 # 100)%Q ∧
     ((8000 < t)%Q → Toy.exploration_rate σ' = (5 # 100)%Q) ∧
     ((t <= 8000)%Q →
      existsb (λ ep, Qltb 8000 (Toy.sim_tick ep)) eps = false →
      Toy.exploration_rate σ' = 1%Q)).
Proof.
  split.
  - intros epsilon rnd t d rad av l σ σ' He.
    apply CLMAB_facts.clmab_execute_rate in He as (-> & _).
    split; intros Ht.
    + apply Qltb_lt in Ht. by rewrite Ht.
    + apply Qltb_ge in Ht. by rewrite Ht.
  - intros rnd vl bl eps t reach σ σ' Hr He.
    apply Toy_facts.toy_run_schedule in Hr.
    apply Toy_facts.toy_execute_schedule in He.
    rewrite Toy_facts.toy_update_schedule_spec in He.
    unfold Toy.schedule in Hr, He.
    injection Hr as Heps Hrate HT Hfull.
    injection He as _ Hrate' _ _.
    rewrite Hrate', Heps, Hrate, HT, Hfull.
    split; [done|]. split; [done|]. split.
    + intros Ht. apply Qltb_lt in Ht. rewrite Ht, andb_true_r.
      by destruct (existsb _ eps).
    + intros Ht Hpast. apply Qltb_ge in Ht.
      by rewrite Ht, andb_false_r, Hpast.
Qed.

(** C4, as amended.  In the toy example, once a step of a run came at a
    time past [exploration_time], the rate is [epsilon] and the flag of full
    exploration is down after every later step, whatever the later times
    are; and the rate of a run is [1.0] or [epsilon].  In [CLMAB] only the
    flag [is_exploration_over] is kept: the rate of each call is set from
    the time of that call alone, so it is [1.0] again at a later call whose
    time is below [exploration_time]. *)
Theorem exploration_rate_latch :
  (∀ rnd vl bl eps1 ep eps2 σ,
     Toy.run rnd vl bl (eps1 ++ ep :: eps2) (Toy.init bl) = Some σ →
     (8000 < Toy.sim_tick ep)%Q →
     Toy.exploration_rate σ = (5 # 100)%Q ∧
     Toy.is_full_exploration σ = false) ∧
  (∀ rnd vl bl eps σ,
     Toy.run rnd vl bl eps (Toy.init bl) = Some σ →
     Toy.exploration_rate σ = 1%Q ∨ Toy.exploration_rate σ = (5 # 100)%Q) ∧
  (∀ epsilon rnd t d rad av l σ σ',
     CLMAB.execute epsilon rnd t d rad av l σ = Some σ' →
     CLMAB.exploration_rate σ' =
       (if Qltb t (CLMAB.exploration_time σ) then 1%Q else epsilon) ∧
     (CLMAB.is_exploration_over σ = true →
      CLMAB.is_exploration_over σ' = true)).
Proof.
  split; [|split].
  - intros rnd vl bl eps1 ep eps2 σ Hr Ht.
    apply Toy_facts.toy_run_schedule in Hr. unfold Toy.schedule in Hr.
    injection Hr as _ -> _ ->.
    apply Qltb_lt in Ht.
    rewrite existsb_app. simpl. by rewrite Ht, orb_true_r.
  - intros rnd vl bl eps σ Hr.
    apply Toy_facts.toy_run_schedule in Hr. unfold Toy.schedule in Hr.
    injection Hr as _ -> _ _.
    destruct (existsb _ eps); eauto.
  - intros epsilon rnd t d rad av l σ σ' He.
    apply CLMAB_facts.clmab_execute_rate in He as (-> & _ & ->).
    split; [done|]. intros ->. by destruct (Qltb _ _).
Qed.

(** ** The context encoder *)

Lemma chars_app (s1 s2 : string) :
  list_ascii_of_string (s1 +:+ s2)
  = list_ascii_of_string s1 ++ list_ascii_of_string s2.
Proof. induction s1 as [|c s1 IH]; simpl; [done|]. by rewrite IH. Qed.

Lemma chars_length (s : string) :
  String.length s = length (list_ascii_of_string s).
Proof. induction s as [|c s IH]; simpl; [done|]. by rewrite IH. Qed.

Lemma chars_get (s : string) (i : nat) :
  String.get i s = list_ascii_of_string s !! i.
Proof.
  revert i. induction s as [|c s IH]; intros i; simpl; [by destruct i|].
  destruct i as [|i]; [done|]. apply IH.
Qed.

Lemma chars_context_bit (b : bool) :
  list_ascii_of_string (context_bit b) = [bit_char b].
Proof. by destruct b. Qed.

(** The loop that appends one character for each neighbour. *)
Lemma chars_context_loop (serving : nat → bool) (l : list nat) (acc : string) :
  list_ascii_of_string
    (foldl (λ context n, context +:+ context_bit (serving n)) acc l)
  = list_ascii_of_string acc ++ ((bit_char ∘ serving) <$> l).
Proof.
  revert acc. induction l as [|n l IH]; intros acc; simpl.
  - by rewrite app_nil_r.
  - rewrite IH, chars_app, chars_context_bit, <- app_assoc. done.
Qed.

(** The same loop when it skips the station itself. *)
Lemma chars_context_loop_skip (serving : nat → bool) (b : nat) (l : list nat)
    (acc : string) :
  list_ascii_of_string
    (foldl (λ context n,
              if bool_decide (n = b) then context
              else context +:+ context_bit (serving n)) acc l)
  = list_ascii_of_string acc
    ++ ((bit_char ∘ serving) <$> filter (λ n, n ≠ b) l).
Proof.
  revert acc. induction l as [|n l IH]; intros acc; simpl.
  - by rewrite app_nil_r.
  - rewrite IH, list.filter_cons. case_bool_decide as Hn.
    + by rewrite decide_False by (by intros []).
    + rewrite decide_True by done.
      rewrite chars_app, chars_context_bit, <- app_assoc. done.
Qed.

(** A string that is ["["], then one character for each element of [l],
    then ["]"]. *)
Lemma bracketed_string (ctx : string) (bits : list ascii) :
  list_ascii_of_string ctx = "["%char :: bits ++ ["]"%char] →
  String.length ctx = (length bits + 2)%nat ∧
  String.get 0 ctx = Some "["%char ∧
  String.get (S (length bits)) ctx = Some "]"%char ∧
  ∀ i c, bits !! i = Some c → String.get (S i) ctx = Some c.
Proof.
  intros Hc. rewrite chars_length, !chars_get, Hc.
  split; [simpl; rewrite length_app; simpl; lia|].
  split; [done|]. split.
  - simpl. rewrite lookup_app_r by done. by rewrite Nat.sub_diag.
  - intros i c Hi. rewrite chars_get, Hc. simpl.
    by rewrite lookup_app_l by (by eapply lookup_lt_Some).
Qed.

(** C8, as amended.  The context of an agent is a function of the state and
    returns a string only: ["["], then one character for each neighbour in
    the order of the neighbour list, ["1"] if that neighbour serves a client
    and ["0"] otherwise, then ["]"].  Its length is the number of neighbours
    plus two, and the character of the [i]-th neighbour is at position
    [i + 1].  The neighbours are [neighbour_list] in [CLMAB], and the
    stations of [bs_list] other than the station itself in the toy
    example. *)
Theorem context_encoding :
  (∀ s σ,
     let neighbours := CLMAB.neighbour_list (CLMAB.sectors σ s) in
     let serving n :=
       bool_decide (CLMAB.serving_node (CLMAB.sectors σ n) ≠ None) in
     let context := CLMAB.get_current_context s σ in
     list_ascii_of_string context
       = "["%char :: ((bit_char ∘ serving) <$> neighbours) ++ ["]"%char] ∧
     String.length context = (length neighbours + 2)%nat ∧
     ∀ i n, neighbours !! i = Some n →
            String.get (S i) context = Some (bit_char (serving n))) ∧
  (∀ b bs_list σ,
     let neighbours := filter (λ n, n ≠ b) bs_list in
     let serving n :=
       bool_decide (Toy.serving_vehicle (Toy.stations σ n) ≠ None) in
     let context := Toy.get_current_context b bs_list σ in
     list_ascii_of_string context
       = "["%char :: ((bit_char ∘ serving) <$> neighbours) ++ ["]"%char] ∧
     String.length context = (length neighbours + 2)%nat ∧
     ∀ i n, neighbours !! i = Some n →
            String.get (S i) context = Some (bit_char (serving n))).
Proof.
  split.
  - intros s σ neighbours serving context.
    assert (Hc : list_ascii_of_string context
      = "["%char :: ((bit_char ∘ serving) <$> neighbours) ++ ["]"%char]).
    { unfold context, CLMAB.get_current_context.
      rewrite chars_app, (chars_context_loop serving). done. }
    split; [exact Hc|].
    destruct (bracketed_string _ _ Hc) as (Hlen & _ & _ & Hget).
    rewrite length_fmap in Hlen. split; [exact Hlen|].
    intros i n Hi. apply Hget. by rewrite list_lookup_fmap, Hi.
  - intros b bs_list σ neighbours serving context.
    assert (Hc : list_ascii_of_string context
      = "["%char :: ((bit_char ∘ serving) <$> neighbours) ++ ["]"%char]).
    { unfold context, Toy.get_current_context.
      rewrite chars_app, (chars_context_loop_skip serving). done. }
    split; [exact Hc|].
    destruct (bracketed_string _ _ Hc) as (Hlen & _ & _ & Hget).
    rewrite length_fmap in Hlen. split; [exact Hlen|].
    intros i n Hi. apply Hget. by rewrite list_lookup_fmap, Hi.
Qed.

(** ** The acquisition decision *)

(** C7.  For a decision taken in the exploitation branch (an agent without
    client whose timer is over, a candidate picked, a draw that is not
    below the exploration rate), with [r = get_reward(agent, context)] and
    [th = get_threshold(agent)]: the agent serves the candidate if and only
    if [r == 0] or [r > th]; an unseen context ([r == 0]) is served whatever
    the threshold is, and [r] equal to a threshold that is not zero is not
    served.  Both implementations decide this way; when it does not serve,
    [CLMAB] arms the backoff and the toy example continues with the backoff
    of C1. *)
Theorem exploit_serves_iff :
  (∀ rnd t rad s σ selected r th,
     CLMAB.serving_node (CLMAB.sectors σ s) = None →
     CLMAB.is_backoff s t σ = false →
     random_choice rnd (CLMAB.rng_pos σ) (CLMAB.detection_list rad s σ)
       = Some selected →
     Qltb (random_at rnd (S (CLMAB.rng_pos σ))) (CLMAB.exploration_rate σ)
       = false →
     get_reward (CLMAB.store σ) s (Some (CLMAB.get_current_context s σ))
       = Some r →
     get_threshold (CLMAB.store σ) s = Some th →
     ∃ σ', CLMAB.new_association rnd t rad s σ = Some σ' ∧
       (CLMAB.serving_node (CLMAB.sectors σ' s) = Some selected.1
        ↔ (r == 0 ∨ th < r)%Q) ∧
       (CLMAB.serving_node (CLMAB.sectors σ' s) = None
        ↔ ¬ (r == 0 ∨ th < r)%Q) ∧
       ((r == 0)%Q →
        CLMAB.serving_node (CLMAB.sectors σ' s) = Some selected.1) ∧
       ((r == th)%Q → ¬ (th == 0)%Q →
        CLMAB.serving_node (CLMAB.sectors σ' s) = None)) ∧
  (∀ rnd t reach vl bl b σ selected r th,
     Toy.serving_vehicle (Toy.stations σ b) = None →
     Toy.is_backoff b t σ = false →
     random_choice rnd (Toy.rng_pos σ) (Toy.reachable_vehicles reach b vl σ)
       = Some selected →
     Qltb (random_at rnd (S (Toy.rng_pos σ))) (Toy.exploration_rate σ)
       = false →
     get_reward (Toy.store σ) b (Toy.get_current_context b bl σ) = Some r →
     get_threshold (Toy.store σ) b = Some th →
     ((r == 0 ∨ th < r)%Q →
      ∃ σ', Toy.new_association rnd t reach vl bl b σ = Some σ' ∧
            Toy.serving_vehicle (Toy.stations σ' b) = Some selected) ∧
     (¬ (r == 0 ∨ th < r)%Q →
      Toy.new_association rnd t reach vl bl b σ =
        (duration ← Toy.get_average_serving_duration b σ;
         Some (Toy.backoff b t duration
                 (Toy.next_random (Toy.next_random σ)))) ∧
      ∀ σ', Toy.new_association rnd t reach vl bl b σ = Some σ' →
            Toy.serving_vehicle (Toy.stations σ' b) = None) ∧
     ((r == 0)%Q → (r == 0 ∨ th < r)%Q) ∧
     ((r == th)%Q → ¬ (th == 0)%Q → ¬ (r == 0 ∨ th < r)%Q)).
Proof.
  assert (Hequal : ∀ r th : Q, (r == th)%Q → ¬ (th == 0)%Q →
                               ¬ (r == 0 ∨ th < r)%Q).
  { intros r th Heq Hnz [Hz|Hlt].
    - apply Hnz. by rewrite <- Heq.
    - rewrite Heq in Hlt. by apply Qlt_irrefl in Hlt. }
  split.
  - intros rnd t rad s σ selected r th Hs Hb Hsel Hdraw Hr Hth.
    rewrite (CLMAB_facts.clmab_exploit_step rnd t rad s σ selected r th)
      by done.
    eexists. split; [reflexivity|].
    pose proof (CLMAB_facts.clmab_exploit_decision_spec r th) as Hspec.
    assert (Hserve : CLMAB.serving_node
              (CLMAB.sectors
                 (CLMAB.set_MAB_context s (CLMAB.get_current_context s σ)
                    (CLMAB.associate_vehicle s selected.1
                       (CLMAB.next_random (CLMAB.next_random σ)))) s)
            = Some selected.1).
    { CLMAB_facts.state_simpl. by rewrite !decide_True. }
    assert (Hback : CLMAB.serving_node
              (CLMAB.sectors
                 (CLMAB.backoff s t th
                    (CLMAB.next_random (CLMAB.next_random σ))) s) = None).
    { CLMAB_facts.state_simpl. by rewrite !decide_True. }
    destruct (CLMAB.exploit_decision r th) eqn:Hd.
    + assert (Hc : (r == 0 ∨ th < r)%Q) by (by apply Hspec).
      rewrite Hserve. split; [done|]. split; [split; [done|by intros []]|].
      split; [done|]. intros Heq Hnz. by destruct (Hequal r th).
    + assert (Hc : ¬ (r == 0 ∨ th < r)%Q).
      { intros Hc. apply Hspec in Hc. congruence. }
      rewrite Hback. split; [split; [done|by intros ?]|]. split; [done|].
      split; [|done]. intros Hz. destruct Hc. by left.
  - intros rnd t reach vl bl b σ selected r th Hs Hb Hsel Hdraw Hr Hth.
    rewrite (Toy_facts.toy_exploit_step rnd t reach vl bl b σ selected r th)
      by done.
    pose proof (Toy_facts.toy_exploit_decision_spec r th) as Hspec.
    split; [|split; [|split; [by left|apply Hequal]]].
    + intros Hc. apply Hspec in Hc. rewrite Hc.
      eexists. split; [reflexivity|].
      Toy_facts.state_simpl. by rewrite !decide_True.
    + intros Hc.
      destruct (Toy.exploit_decision r th) eqn:Hd;
        [destruct Hc; by apply Hspec|].
      split; [done|]. intros σ' Hn.
      destruct (Toy.get_average_serving_duration b σ) as [d|]; [|done].
      injection Hn as <-. Toy_facts.state_simpl. by rewrite !decide_True.
Qed.

(** C1, as amended.  An agent that decides to back off (the exploitation
    branch, with a reward that is neither zero nor above the threshold) arms
    its timer with [start_time] equal to the current [sim_time].  In the
    toy example the duration is the average serving duration of the
    station, [total_serving_duration / total_serving_count], when the
    station has completed a connection.  In [CLMAB] the duration is the
    threshold [this_threshold] of that decision, the mean of the mean
    rewards of the agent. *)
Theorem backoff_timer_armed :
  (∀ rnd t rad s σ selected r th,
     CLMAB.serving_node (CLMAB.sectors σ s) = None →
     CLMAB.is_backoff s t σ = false →
     random_choice rnd (CLMAB.rng_pos σ) (CLMAB.detection_list rad s σ)
       = Some selected →
     Qltb (random_at rnd (S (CLMAB.rng_pos σ))) (CLMAB.exploration_rate σ)
       = false →
     get_reward (CLMAB.store σ) s (Some (CLMAB.get_current_context s σ))
       = Some r →
     get_threshold (CLMAB.store σ) s = Some th →
     ¬ (r == 0 ∨ th < r)%Q →
     ∃ σ', CLMAB.new_association rnd t rad s σ = Some σ' ∧
           CLMAB.MAB_backoff (CLMAB.sectors σ' s) = (t, th)) ∧
  (∀ rnd t reach vl bl b σ selected r th,
     Toy.serving_vehicle (Toy.stations σ b) = None →
     Toy.is_backoff b t σ = false →
     random_choice rnd (Toy.rng_pos σ) (Toy.reachable_vehicles reach b vl σ)
       = Some selected →
     Qltb (random_at rnd (S (Toy.rng_pos σ))) (Toy.exploration_rate σ)
       = false →
     get_reward (Toy.store σ) b (Toy.get_current_context b bl σ) = Some r →
     get_threshold (Toy.store σ) b = Some th →
     ¬ (r == 0 ∨ th < r)%Q →
     Toy.total_serving_count (Toy.stations σ b) ≠ 0 →
     ∃ σ', Toy.new_association rnd t reach vl bl b σ = Some σ' ∧
           Toy.MACOL_backoff (Toy.stations σ' b) =
           (t, Toy.total_serving_duration (Toy.stations σ b) /
               inject_Z (Toy.total_serving_count (Toy.stations σ b)))%Q).
Proof.
  split.
  - intros rnd t rad s σ selected r th Hs Hb Hsel Hdraw Hr Hth Hc.
    rewrite (CLMAB_facts.clmab_exploit_step rnd t rad s σ selected r th)
      by done.
    destruct (CLMAB.exploit_decision r th) eqn:Hd.
    { destruct Hc. by apply CLMAB_facts.clmab_exploit_decision_spec. }
    eexists. split; [reflexivity|].
    CLMAB_facts.state_simpl. by rewrite !decide_True.
  - intros rnd t reach vl bl b σ selected r th Hs Hb Hsel Hdraw Hr Hth Hc Hn.
    rewrite (Toy_facts.toy_exploit_step rnd t reach vl bl b σ selected r th)
      by done.
    destruct (Toy.exploit_decision r th) eqn:Hd.
    { destruct Hc. by apply Toy_facts.toy_exploit_decision_spec. }
    unfold Toy.get_average_serving_duration.
    rewrite py_div_Some.
    2:{ change 0%Q with (inject_Z 0). by rewrite inject_Z_injective. }
    eexists. split; [reflexivity|].
    Toy_facts.state_simpl. by rewrite !decide_True.
Qed.

(** ** The reward of a lost connection *)

(** C2, as amended.  For a serving agent of the list whose client has
    become unreachable, the second loop of [execute] treats the agent once.
    In [CLMAB]: when the duration of the connection is not zero,
    [update_reward] is called exactly once for the agent, with the context
    stored at the association and the reward
    [serving_interference_free / serving_duration]; when the duration is
    zero, it is not called for the agent, and the tables of the agent stay
    as they are.  In the toy example [update_reward] is called exactly once
    for the station whatever the duration is, with the context stored at the
    association and the reward [serving_inter_free], the interference-free
    duration itself.  In both, the calls listed are the only writes of
    [execute] to the tables, and an association stores the context of the
    moment it is made. *)
Theorem lost_connection_reward :
  (∀ epsilon t rad l σ s v,
     s ∈ l →
     CLMAB.serving_node (CLMAB.sectors σ s) = Some v →
     CLMAB.VehicleNode v ∉ CLMAB.broadcast rad s →
     ∃ calls,
       CLMAB.execute_calls rad l (CLMAB.update_schedule epsilon t σ)
         = Some calls ∧
       filter (λ call, call.1.1 = s) calls =
       (if Qeq_bool (CLMAB.serving_duration (CLMAB.sectors σ s)) 0 then []
        else [(s, CLMAB.MAB_context (CLMAB.sectors σ s),
               (CLMAB.serving_interference_free (CLMAB.sectors σ s) /
                CLMAB.serving_duration (CLMAB.sectors σ s))%Q)]) ∧
       ∀ rnd d av σ',
         CLMAB.execute epsilon rnd t d rad av l σ = Some σ' →
         run_updates calls (CLMAB.store σ) = Some (CLMAB.store σ') ∧
         ((CLMAB.serving_duration (CLMAB.sectors σ s) == 0)%Q →
          q_value (CLMAB.store σ') !! s = q_value (CLMAB.store σ) !! s ∧
          q_count (CLMAB.store σ') !! s = q_count (CLMAB.store σ) !! s)) ∧
  (∀ rnd t rad s σ σ' v,
     CLMAB.new_association rnd t rad s σ = Some σ' →
     CLMAB.serving_node (CLMAB.sectors σ s) = None →
     CLMAB.serving_node (CLMAB.sectors σ' s) = Some v →
     CLMAB.MAB_context (CLMAB.sectors σ' s)
       = Some (CLMAB.get_current_context s σ)) ∧
  (∀ t reach l σ b v calls,
     b ∈ l →
     Toy.serving_vehicle (Toy.stations σ b) = Some v →
     reach b v = false →
     Toy.execute_calls reach l (Toy.update_schedule t σ) = Some calls →
     (∃ context free,
        Toy.MAB_context (Toy.stations σ b) = Some context ∧
        Toy.serving_inter_free (Toy.stations σ b) = Some free ∧
        filter (λ call, call.1.1 = b) calls = [(b, context, free)]) ∧
     ∀ rnd vl σ',
       Toy.execute rnd t reach vl l σ = Some σ' →
       run_updates calls (Toy.store σ) = Some (Toy.store σ')) ∧
  (∀ rnd t reach vl bl b σ σ' v,
     Toy.new_association rnd t reach vl bl b σ = Some σ' →
     Toy.serving_vehicle (Toy.stations σ b) = None →
     Toy.serving_vehicle (Toy.stations σ' b) = Some v →
     Toy.MAB_context (Toy.stations σ' b)
       = Some (Toy.get_current_context b bl σ)).
Proof.
  split; [|split; [|split]].
  - intros epsilon t rad l σ s v Hin Hs Hout.
    destruct (CLMAB_facts.clmab_update_schedule_sectors epsilon t σ)
      as [Hsec _].
    destruct (CLMAB_facts.clmab_drop_lost_spec rad s l
                (CLMAB.update_schedule epsilon t σ) [])
      as (σ1 & new & Hrun & Hf & Hd & Hi & Hc).
    rewrite Hsec in Hf, Hd, Hi, Hc.
    rewrite bool_decide_true, Hs, bool_decide_false in Hf by done.
    destruct (CLMAB_facts.clmab_reward_calls_total new σ1) as [calls Hcalls].
    pose proof (CLMAB_facts.clmab_reward_calls_filter s _ _ _ Hcalls) as Hfc.
    rewrite Hf in Hfc. simpl in Hfc. unfold CLMAB.lost_reward in Hfc.
    rewrite Hd, Hi, Hc in Hfc.
    assert (Hexec : CLMAB.execute_calls rad l
                      (CLMAB.update_schedule epsilon t σ) = Some calls).
    { unfold CLMAB.execute_calls, CLMAB.drop_lost. by rewrite Hrun. }
    exists calls. split; [exact Hexec|].
    assert (Hfilter : filter (λ call, call.1.1 = s) calls =
       (if Qeq_bool (CLMAB.serving_duration (CLMAB.sectors σ s)) 0 then []
        else [(s, CLMAB.MAB_context (CLMAB.sectors σ s),
               (CLMAB.serving_interference_free (CLMAB.sectors σ s) /
                CLMAB.serving_duration (CLMAB.sectors σ s))%Q)])).
    { destruct (Qeq_bool (CLMAB.serving_duration (CLMAB.sectors σ s)) 0)
        eqn:Hz.
      - simpl in Hfc. by injection Hfc as <-.
      - rewrite py_div_Some in Hfc.
        2:{ intros Hq. apply Qeq_bool_iff in Hq. congruence. }
        simpl in Hfc. by injection Hfc as <-. }
    split; [exact Hfilter|].
    intros rnd d av σ' He.
    apply CLMAB_facts.clmab_execute_store in He as (calls' & Hc' & Hrun').
    rewrite Hexec in Hc'. injection Hc' as <-.
    split; [done|]. intros Hz. apply Qeq_bool_iff in Hz.
    rewrite Hz in Hfilter. by eapply run_updates_other.
  - apply CLMAB_facts.clmab_association_context.
  - intros t reach l σ b v calls Hin Hs Hreach Hexec.
    destruct (Toy_facts.toy_update_schedule_stations t σ) as [Hsta _].
    unfold Toy.execute_calls in Hexec.
    destruct (Toy.drop_lost reach l (Toy.update_schedule t σ))
      as [[σ1 lost]|] eqn:Hdrop; [|done].
    simpl in Hexec.
    destruct (Toy_facts.toy_drop_lost_spec reach b l _ [] σ1 lost Hdrop)
      as (new & -> & Hf & Hi & Hc).
    rewrite Hsta in Hf, Hi, Hc. simpl in Hexec.
    rewrite bool_decide_true, Hs, Hreach in Hf by done.
    pose proof (Toy_facts.toy_reward_calls_filter b _ _ _ Hexec) as Hfc.
    rewrite Hf in Hfc. simpl in Hfc. unfold Toy.lost_reward in Hfc.
    rewrite Hi, Hc in Hfc.
    split.
    + destruct (Toy.serving_inter_free (Toy.stations σ b)) as [free|];
        [|done].
      simpl in Hfc.
      destruct (Toy.MAB_context (Toy.stations σ b)) as [context|]; [|done].
      simpl in Hfc. injection Hfc as <-. by exists context, free.
    + intros rnd vl σ' He.
      apply Toy_facts.toy_execute_store in He as (calls' & Hc' & Hrun').
      unfold Toy.execute_calls in Hc'. rewrite Hdrop in Hc'. simpl in Hc'.
      rewrite Hexec in Hc'. by injection Hc' as <-.
  - apply Toy_facts.toy_association_context.
Qed.

(** ** The states of a run *)


(** C10.  In the toy example, in any state in which the third loop of a
    call of [execute] comes to a station during a run from the initial
    state: if the decision for that station is to back off (the draw is not
    below the rate, and the reward of the context is neither zero nor above
    the threshold), then the station has completed a connection,
    [total_serving_count >= 1], and the division of
    [get_average_serving_duration] returns a value. *)
Theorem backoff_division_safe (rnd : rand) (vl bl : list nat)
    (eps : list Toy.epoch) (σ : Toy.state) (t : Q) (reach : nat → nat → bool)
    (b : nat) (σd : Toy.state) (context : string) (draw : Q) :
  Toy.run rnd vl bl eps (Toy.init bl) = Some σ →
  Toy.at_decision rnd t reach vl bl σ b σd →
  Toy.serve_or_backoff b context draw (Toy.next_random (Toy.next_random σd))
    = Some false →
  1 ≤ Toy.total_serving_count (Toy.stations σd b) ∧
  ∃ duration,
    Toy.get_average_serving_duration b (Toy.next_random (Toy.next_random σd))
      = Some duration.
Proof.
  intros Hr (before & after & σ1 & lost & σ2 & Hbl & H1 & H2 & H3) Hdec.
  assert (HC : Toy.counted σd).
  { pose proof (Toy_facts.toy_counted_run _ _ _ _ _ _
                  (Toy_facts.toy_counted_init bl) Hr) as HC.
    assert (HC0 : Toy.counted (Toy.update_schedule t σ)).
    { unfold Toy.update_schedule. by repeat case_match. }
    destruct (Toy_facts.toy_counted_drop_lost _ _ _ _ _ HC0 H1) as [HC1 Hl].
    pose proof (Toy_facts.toy_counted_reward_loop _ _ _ HC1 Hl H2) as HC2.
    by eapply Toy_facts.toy_counted_association_loop. }
  assert (Hcount : 1 ≤ Toy.total_serving_count (Toy.stations σd b)).
  { unfold Toy.serve_or_backoff in Hdec.
    destruct (Qltb draw _); [done|].
    change (Toy.store (Toy.next_random (Toy.next_random σd)))
      with (Toy.store σd) in Hdec.
    unfold get_reward in Hdec.
    destruct (q_value (Toy.store σd) !! b) as [tv|] eqn:Htv; [|done].
    cbn [mbind option_bind] in Hdec.
    destruct (tv !! context) as [v|] eqn:Hv.
    - destruct (HC b) as [_ Hb]. by eapply Hb.
    - cbn [mbind option_bind] in Hdec.
      destruct (get_threshold (Toy.store σd) b) as [th|]; [|done].
      cbn [mbind option_bind] in Hdec. unfold Toy.exploit_decision in Hdec.
      change (Qeq_bool 0 0) with true in Hdec. done. }
  split; [done|].
  unfold Toy.get_average_serving_duration.
  change (Toy.stations (Toy.next_random (Toy.next_random σd)))
    with (Toy.stations σd).
  rewrite py_div_Some; [by eexists|].
  change 0%Q with (inject_Z 0). rewrite inject_Z_injective. lia.
Qed.

(** * More about the code *)

(** ** The tables of the reward estimator *)

Section StoreShapeFacts.
Context {K : Type} `{Countable K}.
Implicit Types (st : qstore K) (tv : gmap K Q) (tc : gmap K Z).

(** A call of [update_reward] that returns started from a table of the
    agent, with the mean [v] and the count [n] of the context (both [0] for
    a new context). *)
Lemma update_reward_inv st a c r st' :
  update_reward st a c r = Some st' →
  ∃ tv tc v n,
    q_value st !! a = Some tv ∧ q_count st !! a = Some tc ∧
    ((tv !! c = Some v ∧ tc !! c = Some n) ∨
     (tv !! c = None ∧ v = 0%Q ∧ n = 0)) ∧
    n + 1 ≠ 0.
Proof.
  unfold update_reward. intros Hu.
  destruct (q_value st !! a) as [tv|] eqn:Hv; [|done]. simpl in Hu.
  destruct (tv !! c) as [v|] eqn:Hvc; simpl in Hu.
  - rewrite Hv in Hu. simpl in Hu. rewrite Hvc in Hu. simpl in Hu.
    destruct (q_count st !! a) as [tc|] eqn:Hc; [|done]. simpl in Hu.
    destruct (tc !! c) as [n|] eqn:Hcc; [|done]. simpl in Hu.
    destruct (py_div _ (inject_Z (n + 1))) as [q|] eqn:Hq; [|done].
    apply py_div_inv in Hq as [Hnz _].
    exists tv, tc, v, n. split; [done|]. split; [done|].
    split; [by left|]. intros Hz. apply Hnz. by rewrite Hz.
  - destruct (q_count st !! a) as [tc|] eqn:Hc; [|done].
    exists tv, tc, 0%Q, 0. split; [done|]. split; [done|].
    split; [by right|]. done.
Qed.

Lemma store_ok_init (sector_list : list nat) :
  store_ok (K:=K) sector_list (qstore_init sector_list).
Proof.
  intros a Ha. destruct (qstore_init_lookup (K:=K) sector_list a Ha) as [Hv Hc].
  exists ∅, ∅. split; [done|]. split; [done|]. intros c.
  rewrite !lookup_empty. split; [done|]. intros n Hn. done.
Qed.

(** On well-formed tables [update_reward] returns for a registered agent,
    and the tables stay well-formed. *)
Lemma store_ok_update (sector_list : list nat) st a c r :
  store_ok sector_list st → a ∈ sector_list →
  ∃ st', update_reward st a c r = Some st' ∧ store_ok sector_list st'.
Proof.
  intros Hok Ha. destruct (Hok a Ha) as (tv & tc & Hv & Hc & Hsync).
  destruct (Hsync c) as [Hiff Hnn].
  assert (Hstart : ∃ v n,
    ((tv !! c = Some v ∧ tc !! c = Some n) ∨
     (tv !! c = None ∧ v = 0%Q ∧ n = 0)) ∧ 0 ≤ n).
  { destruct (tv !! c) as [v|] eqn:Hvc.
    - destruct (tc !! c) as [n|] eqn:Hcc.
      + exists v, n. split; [by left|]. by apply Hnn.
      + destruct Hiff as [_ Hiff]. by specialize (Hiff eq_refl).
    - exists 0%Q, 0. split; [by right|]. done. }
  destruct Hstart as (v & n & Hcase & Hn).
  destruct (update_reward_step st a c r tv tc v n Hv Hc Hcase)
    as (st' & tv' & tc' & Hup & Hv' & Hc' & Hvc' & Hcc' & Hoc & Hoa); [lia|].
  exists st'. split; [done|]. intros b Hb.
  destruct (decide (b = a)) as [->|Hne].
  - exists tv', tc'. split; [done|]. split; [done|]. intros c'.
    destruct (decide (c' = c)) as [->|Hnc].
    + rewrite Hvc', Hcc'. split; [done|]. intros m [= <-]. lia.
    + destruct (Hoc c' Hnc) as [-> ->]. apply Hsync.
  - destruct (Hoa b Hne) as [-> ->]. by apply Hok.
Qed.

Lemma store_ok_get_reward (sector_list : list nat) st a c :
  store_ok sector_list st → a ∈ sector_list → is_Some (get_reward st a c).
Proof.
  intros Hok Ha. destruct (Hok a Ha) as (tv & tc & Hv & _).
  unfold get_reward. rewrite Hv. simpl. by destruct (tv !! c).
Qed.

Lemma py_len_nonzero (n : nat) : n ≠ 0%nat → ¬ (py_len n == 0)%Q.
Proof.
  intros Hn Hz. destruct n as [|n]; [done|].
  pose proof (py_len_pos n) as Hpos. rewrite Hz in Hpos.
  by apply Qlt_irrefl in Hpos.
Qed.

Lemma get_threshold_registered st a tv :
  q_value st !! a = Some tv → is_Some (get_threshold st a).
Proof.
  intros Hv. unfold get_threshold. rewrite Hv. simpl.
  case_decide as Hsz; [done|]. by rewrite py_div_Some by by apply py_len_nonzero.
Qed.

End StoreShapeFacts.

(** * Concrete instances *)



(** ** Runs of the two simulations *)

(** The toy example with one station, called at the boundary
    [t = exploration_time]: the rate is still [1.0], not [epsilon]. *)
Lemma exploration_rate_boundary_counterexample :
  (Toy.exploration_time (Toy.init [0%nat]) <= 8000)%Q ∧
  Toy.exploration_rate
    <$> Toy.execute rnd_exploit 8000 (λ _ _, false) [] [0%nat]
          (Toy.init [0%nat]) = Some 1%Q ∧
  Toy.epsilon
    <$> Toy.execute rnd_exploit 8000 (λ _ _, false) [] [0%nat]
          (Toy.init [0%nat]) = Some (5 # 100)%Q ∧
  ¬ (1 == 5 # 100)%Q.
Proof. split; [done|]. split; [reflexivity|]. split; [reflexivity|done]. Qed.

(** [CLMAB] with [exploration_time = 5] and [epsilon = 0.05], called at
    time [10] and then at time [1]: the rate is [epsilon] after the first
    call and [1.0] again after the second. *)
Lemma exploration_rate_reverts_counterexample :
  CLMAB.exploration_rate
    <$> CLMAB.run (5 # 100) rnd_exploit [0%nat] [quiet_epoch 10]
          (CLMAB.init [0%nat] (λ _, []) 5) = Some (5 # 100)%Q ∧
  CLMAB.exploration_rate
    <$> CLMAB.run (5 # 100) rnd_exploit [0%nat] [quiet_epoch 10; quiet_epoch 1]
          (CLMAB.init [0%nat] (λ _, []) 5) = Some 1%Q ∧
  ¬ (1 == 5 # 100)%Q.
Proof. split; [reflexivity|]. split; [reflexivity|done]. Qed.

(** [CLMAB], one sector: one connection of duration 2 is completed, and at
    time 4 the sector backs off.  The timer is armed at 4 with the threshold
    [2/2] of the decision, not with the average serving duration, which is
    the total duration 2 over the one completed connection. *)
Lemma backoff_duration_counterexample :
  CLMAB.total_duration (CLMAB.sectors after_one_connection 0%nat) = 2%Q ∧
  stored_count (CLMAB.store after_one_connection) 0%nat (Some "[]") = Some 1 ∧
  (λ σ, CLMAB.MAB_backoff (CLMAB.sectors σ 0%nat))
    <$> CLMAB.execute (5 # 100) rnd_exploit 4 1 (radio_sees 8) [] [0%nat]
          after_one_connection = Some (4%Q, 2 # 2) ∧
  ¬ (2 # 2 == 2 / inject_Z 1)%Q.
Proof.
  split; [by vm_compute|]. split; [by vm_compute|]. split; [by vm_compute|].
  by vm_compute.
Qed.

(** The toy example, two stations.  Station 0 loses a connection of
    duration 2 of which 1 was free of interference: the reward passed to
    [update_reward] is 1, not 1/2.  And two connections of duration zero
    that are lost are both rewarded. *)
Lemma toy_reward_counterexample :
  Toy.serving_vehicle (Toy.stations after_two_ticks 0%nat) = Some 7%nat ∧
  Toy.serving_duration (Toy.stations after_two_ticks 0%nat) = Some 2%Q ∧
  Toy.serving_inter_free (Toy.stations after_two_ticks 0%nat) = Some 1%Q ∧
  Toy.execute_calls reach_none [0%nat; 1%nat]
    (Toy.update_schedule 3 after_two_ticks) = Some [(0%nat, "[0]", 1%Q)] ∧
  ¬ (1 == 1 / 2)%Q ∧
  Toy.serving_duration (Toy.stations just_associated 0%nat) = Some 0%Q ∧
  Toy.execute_calls reach_none [0%nat; 1%nat]
    (Toy.update_schedule 2 just_associated)
  = Some [(0%nat, "[0]", 0%Q); (1%nat, "[1]", 0%Q)].
Proof. repeat split; by vm_compute. Qed.

(** [CLMAB], a sector with two neighbours: the context has four characters
    and begins with a bracket. *)
Lemma context_length_counterexample :
  length (CLMAB.neighbour_list (CLMAB.sectors sector_with_neighbours 0%nat))
    = 2%nat ∧
  String.length (CLMAB.get_current_context 0%nat sector_with_neighbours)
    = 4%nat ∧
  String.get 0 (CLMAB.get_current_context 0%nat sector_with_neighbours)
    = Some "["%char.
Proof. repeat split; by vm_compute. Qed.


(** ** Instances of the theorems *)

Lemma backoff_timer_armed_witness :
  (CLMAB.serving_node (CLMAB.sectors after_one_connection 0%nat) = None ∧
   CLMAB.is_backoff 0%nat 4 after_one_connection = false ∧
   random_choice rnd_exploit (CLMAB.rng_pos after_one_connection)
     (CLMAB.detection_list (radio_sees 8) 0%nat after_one_connection)
     = Some (8%nat, 1%Q) ∧
   Qltb (random_at rnd_exploit (S (CLMAB.rng_pos after_one_connection)))
     (CLMAB.exploration_rate after_one_connection) = false ∧
   get_reward (CLMAB.store after_one_connection) 0%nat
     (Some (CLMAB.get_current_context 0%nat after_one_connection))
     = Some (2 # 2)%Q ∧
   get_threshold (CLMAB.store after_one_connection) 0%nat = Some (2 # 2)%Q ∧
   ¬ (2 # 2 == 0 ∨ 2 # 2 < 2 # 2)%Q) ∧
  ∃ σ', CLMAB.new_association rnd_exploit 4 (radio_sees 8) 0%nat
          after_one_connection = Some σ' ∧
        CLMAB.MAB_backoff (CLMAB.sectors σ' 0%nat) = (4%Q, (2 # 2)%Q).
Proof.
  assert (H1 : CLMAB.serving_node (CLMAB.sectors after_one_connection 0%nat)
               = None) by (vm_compute; reflexivity).
  assert (H2 : CLMAB.is_backoff 0%nat 4 after_one_connection = false)
    by (vm_compute; reflexivity).
  assert (H3 : random_choice rnd_exploit (CLMAB.rng_pos after_one_connection)
     (CLMAB.detection_list (radio_sees 8) 0%nat after_one_connection)
     = Some (8%nat, 1%Q)) by (vm_compute; reflexivity).
  assert (H4 : Qltb (random_at rnd_exploit
                       (S (CLMAB.rng_pos after_one_connection)))
     (CLMAB.exploration_rate after_one_connection) = false)
    by (vm_compute; reflexivity).
  assert (H5 : get_reward (CLMAB.store after_one_connection) 0%nat
     (Some (CLMAB.get_current_context 0%nat after_one_connection))
     = Some (2 # 2)%Q) by (vm_compute; reflexivity).
  assert (H6 : get_threshold (CLMAB.store after_one_connection) 0%nat
               = Some (2 # 2)%Q) by (vm_compute; reflexivity).
  assert (H7 : ¬ (2 # 2 == 0 ∨ 2 # 2 < 2 # 2)%Q).
  { intros [H|H]; vm_compute in H; discriminate. }
  split; [exact (conj H1 (conj H2 (conj H3 (conj H4 (conj H5 (conj H6 H7))))))|].
  exact (proj1 backoff_timer_armed rnd_exploit 4%Q (radio_sees 8) 0%nat
           after_one_connection (8%nat, 1%Q) (2 # 2)%Q (2 # 2)%Q
           H1 H2 H3 H4 H5 H6 H7).
Defined.

Lemma exploit_serves_iff_witness :
  (CLMAB.serving_node (CLMAB.sectors after_one_connection 0%nat) = None ∧
   CLMAB.is_backoff 0%nat 4 after_one_connection = false ∧
   random_choice rnd_exploit (CLMAB.rng_pos after_one_connection)
     (CLMAB.detection_list (radio_sees 8) 0%nat after_one_connection)
     = Some (8%nat, 1%Q) ∧
   Qltb (random_at rnd_exploit (S (CLMAB.rng_pos after_one_connection)))
     (CLMAB.exploration_rate after_one_connection) = false ∧
   get_reward (CLMAB.store after_one_connection) 0%nat
     (Some (CLMAB.get_current_context 0%nat after_one_connection))
     = Some (2 # 2)%Q ∧
   get_threshold (CLMAB.store after_one_connection) 0%nat = Some (2 # 2)%Q) ∧
  ∃ σ', CLMAB.new_association rnd_exploit 4 (radio_sees 8) 0%nat
          after_one_connection = Some σ' ∧
    (CLMAB.serving_node (CLMAB.sectors σ' 0%nat) = Some (8%nat, 1%Q).1
     ↔ (2 # 2 == 0 ∨ 2 # 2 < 2 # 2)%Q) ∧
    (CLMAB.serving_node (CLMAB.sectors σ' 0%nat) = None
     ↔ ¬ (2 # 2 == 0 ∨ 2 # 2 < 2 # 2)%Q) ∧
    ((2 # 2 == 0)%Q →
     CLMAB.serving_node (CLMAB.sectors σ' 0%nat) = Some (8%nat, 1%Q).1) ∧
    ((2 # 2 == 2 # 2)%Q → ¬ (2 # 2 == 0)%Q →
     CLMAB.serving_node (CLMAB.sectors σ' 0%nat) = None).
Proof.
  assert (H1 : CLMAB.serving_node (CLMAB.sectors after_one_connection 0%nat)
               = None) by (vm_compute; reflexivity).
  assert (H2 : CLMAB.is_backoff 0%nat 4 after_one_connection = false)
    by (vm_compute; reflexivity).
  assert (H3 : random_choice rnd_exploit (CLMAB.rng_pos after_one_connection)
     (CLMAB.detection_list (radio_sees 8) 0%nat after_one_connection)
     = Some (8%nat, 1%Q)) by (vm_compute; reflexivity).
  assert (H4 : Qltb (random_at rnd_exploit
                       (S (CLMAB.rng_pos after_one_connection)))
     (CLMAB.exploration_rate after_one_connection) = false)
    by (vm_compute; reflexivity).
  assert (H5 : get_reward (CLMAB.store after_one_connection) 0%nat
     (Some (CLMAB.get_current_context 0%nat after_one_connection))
     = Some (2 # 2)%Q) by (vm_compute; reflexivity).
  assert (H6 : get_threshold (CLMAB.store after_one_connection) 0%nat
               = Some (2 # 2)%Q) by (vm_compute; reflexivity).
  split; [exact (conj H1 (conj H2 (conj H3 (conj H4 (conj H5 H6)))))|].
  exact (proj1 exploit_serves_iff rnd_exploit 4%Q (radio_sees 8) 0%nat
           after_one_connection (8%nat, 1%Q) (2 # 2)%Q (2 # 2)%Q
           H1 H2 H3 H4 H5 H6).
Defined.

Lemma lost_connection_reward_witness :
  (0%nat ∈ [0%nat] ∧
   CLMAB.serving_node (CLMAB.sectors while_serving 0%nat) = Some 7%nat ∧
   CLMAB.VehicleNode 7 ∉ CLMAB.broadcast quiet_radio 0%nat) ∧
  ∃ calls,
    CLMAB.execute_calls quiet_radio [0%nat]
      (CLMAB.update_schedule (5 # 100) 3 while_serving) = Some calls ∧
    filter (λ call, call.1.1 = 0%nat) calls =
    (if Qeq_bool (CLMAB.serving_duration (CLMAB.sectors while_serving 0%nat)) 0
     then []
     else [(0%nat, CLMAB.MAB_context (CLMAB.sectors while_serving 0%nat),
            (CLMAB.serving_interference_free
               (CLMAB.sectors while_serving 0%nat) /
             CLMAB.serving_duration (CLMAB.sectors while_serving 0%nat))%Q)]) ∧
    ∀ rnd d av σ',
      CLMAB.execute (5 # 100) rnd 3 d quiet_radio av [0%nat] while_serving
        = Some σ' →
      run_updates calls (CLMAB.store while_serving) = Some (CLMAB.store σ') ∧
      ((CLMAB.serving_duration (CLMAB.sectors while_serving 0%nat) == 0)%Q →
       q_value (CLMAB.store σ') !! 0%nat
         = q_value (CLMAB.store while_serving) !! 0%nat ∧
       q_count (CLMAB.store σ') !! 0%nat
         = q_count (CLMAB.store while_serving) !! 0%nat).
Proof.
  assert (H1 : 0%nat ∈ [0%nat]) by left.
  assert (H2 : CLMAB.serving_node (CLMAB.sectors while_serving 0%nat)
               = Some 7%nat) by (vm_compute; reflexivity).
  assert (H3 : CLMAB.VehicleNode 7 ∉ CLMAB.broadcast quiet_radio 0%nat)
    by apply not_elem_of_nil.
  split; [exact (conj H1 (conj H2 H3))|].
  exact (proj1 lost_connection_reward (5 # 100)%Q 3%Q quiet_radio [0%nat]
           while_serving 0%nat 7%nat H1 H2 H3).
Defined.

Lemma exploration_rate_by_time_witness :
  CLMAB.execute (5 # 100) rnd_exploit 1 1 quiet_radio [] [0%nat] one_sector
    = Some after_quiet_call ∧
  ((1 < CLMAB.exploration_time one_sector)%Q →
   CLMAB.exploration_rate after_quiet_call = 1%Q) ∧
  ((CLMAB.exploration_time one_sector <= 1)%Q →
   CLMAB.exploration_rate after_quiet_call = (5 # 100)%Q).
Proof.
  assert (H1 : CLMAB.execute (5 # 100) rnd_exploit 1 1 quiet_radio []
                 [0%nat] one_sector = Some after_quiet_call)
    by (vm_compute; reflexivity).
  split; [exact H1|].
  exact (proj1 exploration_rate_by_time (5 # 100)%Q rnd_exploit 1%Q 1%Q
           quiet_radio [] [0%nat] one_sector after_quiet_call H1).
Defined.

Lemma exploration_rate_latch_witness :
  (Toy.run rnd_exploit [] [0%nat]
     ([] ++ toy_epoch 8001 reach_none :: [toy_epoch 1 reach_none])
     (Toy.init [0%nat]) = Some after_late_tick ∧
   (8000 < Toy.sim_tick (toy_epoch 8001 reach_none))%Q) ∧
  Toy.exploration_rate after_late_tick = (5 # 100)%Q ∧
  Toy.is_full_exploration after_late_tick = false.
Proof.
  assert (H1 : Toy.run rnd_exploit [] [0%nat]
     ([] ++ toy_epoch 8001 reach_none :: [toy_epoch 1 reach_none])
     (Toy.init [0%nat]) = Some after_late_tick) by (vm_compute; reflexivity).
  assert (H2 : (8000 < Toy.sim_tick (toy_epoch 8001 reach_none))%Q)
    by (vm_compute; reflexivity).
  split; [exact (conj H1 H2)|].
  exact (proj1 exploration_rate_latch rnd_exploit [] [0%nat] []
           (toy_epoch 8001 reach_none) [toy_epoch 1 reach_none]
           after_late_tick H1 H2).
Defined.

Lemma context_encoding_witness :
  (CLMAB.neighbour_list (CLMAB.sectors sector_with_neighbours 0%nat)) !! 1%nat
    = Some 2%nat ∧
  String.get 2 (CLMAB.get_current_context 0%nat sector_with_neighbours)
    = Some (bit_char
              (bool_decide
                 (CLMAB.serving_node (CLMAB.sectors sector_with_neighbours 2%nat)
                  ≠ None))).
Proof.
  assert (H1 : (CLMAB.neighbour_list
                  (CLMAB.sectors sector_with_neighbours 0%nat)) !! 1%nat
               = Some 2%nat) by (vm_compute; reflexivity).
  split; [exact H1|].
  exact (proj2 (proj2 (proj1 context_encoding 0%nat sector_with_neighbours))
           1%nat 2%nat H1).
Defined.


Lemma backoff_division_safe_witness :
  (Toy.run rnd_exploit [7%nat; 8%nat] [0%nat] one_connection
     (Toy.init [0%nat]) = Some after_one_toy_connection ∧
   Toy.at_decision rnd_exploit 3 reach_all [7%nat; 8%nat] [0%nat]
     after_one_toy_connection 0%nat deciding ∧
   Toy.serve_or_backoff 0%nat "[]" 1
     (Toy.next_random (Toy.next_random deciding)) = Some false) ∧
  1 ≤ Toy.total_serving_count (Toy.stations deciding 0%nat) ∧
  ∃ duration,
    Toy.get_average_serving_duration 0%nat
      (Toy.next_random (Toy.next_random deciding)) = Some duration.
Proof.
  assert (H1 : Toy.run rnd_exploit [7%nat; 8%nat] [0%nat] one_connection
     (Toy.init [0%nat]) = Some after_one_toy_connection)
    by (vm_compute; reflexivity).
  assert (H2 : Toy.at_decision rnd_exploit 3 reach_all [7%nat; 8%nat] [0%nat]
     after_one_toy_connection 0%nat deciding).
  { exists (@nil nat), (@nil nat), deciding, (@nil (nat * nat)), deciding.
    split; [reflexivity|].
    split; [vm_compute; reflexivity|].
    split; vm_compute; reflexivity. }
  assert (H3 : Toy.serve_or_backoff 0%nat "[]" 1
     (Toy.next_random (Toy.next_random deciding)) = Some false)
    by (vm_compute; reflexivity).
  split; [exact (conj H1 (conj H2 H3))|].
  exact (backoff_division_safe rnd_exploit [7%nat; 8%nat] [0%nat]
           one_connection after_one_toy_connection 3%Q reach_all 0%nat
           deciding "[]" 1%Q H1 H2 H3).
Defined.
